(** * Qiling core (qiling/core.py): a shallow embedding of the emulator
      orchestrator and the properties of its memory map registry, patch
      set, packing helpers, verbosity gate and hook bridge. *)

From Stdlib Require Import ZArith List Ascii String Bool Lia.
From coqutil Require Import Byte Word.LittleEndianList.
Import ListNotations.
Local Open Scope string_scope.
Local Open Scope list_scope.
Local Open Scope Z_scope.

(** ** Memory map registry ([Qiling.insert_map_info]) *)

Module MapInfo.

(** An entry of [self.map_info] is the Python list [[s, e, p, info]]:
    index 0 the start, 1 the end, 2 the permissions, 3 the label. *)
Definition map_entry : Type := Z * Z * string * string.

Definition ent_start (x : map_entry) : Z := let '(s, _, _, _) := x in s.
Definition ent_end (x : map_entry) : Z := let '(_, e, _, _) := x in e.
Definition ent_perms (x : map_entry) : string := let '(_, _, p, _) := x in p.
Definition ent_label (x : map_entry) : string := let '(_, _, _, info) := x in info.

(** One iteration of the loop [for s, e, p, info in map_info] (lines
    683-707).  [insert_flag] is the int 0/1 of the source, here [false]
    for 0 and [true] for 1.  The result is the list of entries that this
    iteration appends to [tmp_map_info], in order, and the flag after it. *)
Definition split_step (mem_s mem_e : Z) (mem_p mem_info : string)
    (insert_flag : bool) (x : map_entry) : list map_entry * bool :=
  let '(s, e, p, info) := x in
  if e <=? mem_s then ([(s, e, p, info)], insert_flag)
  else if s >=? mem_e then
    ((if insert_flag then [] else [(mem_s, mem_e, mem_p, mem_info)])
       ++ [(s, e, p, info)], true)
  else
    ((if s <? mem_s then [(s, mem_s, mem_p, info)] else [])
       ++ (if insert_flag then [] else [(mem_s, mem_e, mem_p, mem_info)])
       ++ (if e >? mem_e then [(mem_e, e, mem_p, info)] else []),
     true).

(** The whole loop: what it appends to [tmp_map_info] and the final flag. *)
Fixpoint split_loop (mem_s mem_e : Z) (mem_p mem_info : string)
    (insert_flag : bool) (map_info : list map_entry) : list map_entry * bool :=
  match map_info with
  | [] => ([], insert_flag)
  | x :: rest =>
      let '(out, flag) := split_step mem_s mem_e mem_p mem_info insert_flag x in
      let '(outs, flag') := split_loop mem_s mem_e mem_p mem_info flag rest in
      (out ++ outs, flag')
  end.

(** Lines 677-709: the value of [tmp_map_info] before the second pass. *)
Definition build_tmp (map_info : list map_entry) (mem_s mem_e : Z)
    (mem_p mem_info : string) : list map_entry :=
  match map_info with
  | [] => [(mem_s, mem_e, mem_p, mem_info)]
  | _ =>
      let '(tmp, flag) := split_loop mem_s mem_e mem_p mem_info false map_info in
      if flag then tmp else tmp ++ [(mem_s, mem_e, mem_p, mem_info)]
  end.

(** Lines 713-717: [last] is [map_info[-1]].  The test of the source is
    [s == map_info[-1][1] and info == map_info[-1][2]]: the label of the
    entry at hand against index 2, the permissions, of the last entry. *)
Fixpoint coalesce (last : map_entry) (tmp : list map_entry) : list map_entry :=
  match tmp with
  | [] => [last]
  | (s, e, p, info) :: rest =>
      let '(ls, le, lp, linfo) := last in
      if (s =? le) && (info =? lp)%string
      then coalesce (ls, e, lp, linfo) rest
      else last :: coalesce (s, e, p, info) rest
  end.

(** [insert_map_info]: from the old [self.map_info] to the new one.
    [tmp_map_info[0]] raises IndexError on an empty list; [build_tmp]
    never returns one ([build_tmp_nonempty] below), so that branch is
    dead and returns the empty registry here. *)
Definition insert_map_info (map_info : list map_entry) (mem_s mem_e : Z)
    (mem_p mem_info : string) : list map_entry :=
  match build_tmp map_info mem_s mem_e mem_p mem_info with
  | [] => []
  | first :: rest => coalesce first rest
  end.

(** A sequence of calls, starting from a given registry. *)
Definition insert_all (calls : list map_entry) (map_info : list map_entry)
    : list map_entry :=
  fold_left (fun reg c =>
    insert_map_info reg (ent_start c) (ent_end c) (ent_perms c) (ent_label c))
    calls map_info.

(** *** The invariants of the specification, as predicates *)

(** Entries sorted by start. *)
Definition sorted_by_start (reg : list map_entry) : Prop :=
  forall i j a b, (i < j)%nat ->
    nth_error reg i = Some a -> nth_error reg j = Some b ->
    ent_start a < ent_start b.

(** No two entries overlap, as half-open ranges. *)
Definition non_overlapping (reg : list map_entry) : Prop :=
  forall i j a b, i <> j ->
    nth_error reg i = Some a -> nth_error reg j = Some b ->
    ent_end a <= ent_start b \/ ent_end b <= ent_start a.

(** The coalescing invariant as the specification words it: for adjacent
    entries, a gap or different labels. *)
Definition coalesced_by_label (reg : list map_entry) : Prop :=
  forall i a b,
    nth_error reg i = Some a -> nth_error reg (S i) = Some b ->
    ent_end a < ent_start b \/ ent_label a <> ent_label b.

(** The chain the proofs carry: every entry is non-empty and starts at or
    after the end of the one before it ([lo] for the first). *)
Fixpoint ordered_from (lo : Z) (reg : list map_entry) : Prop :=
  match reg with
  | [] => True
  | x :: rest => lo <= ent_start x /\ ent_start x < ent_end x
                 /\ ordered_from (ent_end x) rest
  end.

Definition well_formed (reg : list map_entry) : Prop :=
  exists lo, ordered_from lo reg.

End MapInfo.

(** ** Python values, exceptions and results *)

Module Py.

(** The Python values that reach the modelled code.  [VQl] is the emulator
    object [self], [VUc] the engine handle [uc]; [VObj] is any other
    object, with the value [bool()] gives for it. *)
#[warnings="-register-all"]
Inductive pyval : Type :=
| VNone
| VBool (b : bool)
| VInt (z : Z)
| VStr (s : string)
| VBytes (b : list byte)
| VTuple (items : list pyval)
| VList (items : list pyval)
| VDict (items : list (pyval * pyval))
| VObj (id : Z) (truth : bool)
| VQl
| VUc.

(** The truth value Python's [if user_data:] tests. *)
Definition truthy (v : pyval) : bool :=
  match v with
  | VNone => false
  | VBool b => b
  | VInt z => negb (z =? 0)
  | VStr s => negb (s =? "")%string
  | VBytes b => match b with [] => false | _ => true end
  | VTuple l | VList l => match l with [] => false | _ => true end
  | VDict l => match l with [] => false | _ => true end
  | VObj _ t => t
  | VQl | VUc => true
  end.

(** [type(v) == int]: a bool is not of type int. *)
Definition type_is_int (v : pyval) : bool :=
  match v with VInt _ => true | _ => false end.

(** Exceptions.  [KeyboardInterrupt] is a BaseException that is not an
    Exception; the others are ordinary exceptions. *)
Inductive exn : Type :=
| KeyboardInterrupt
| TypeError
| AttributeError
| RuntimeError
| UnicodeDecodeError
| StructError
| UcError (code : Z)
| QlErrorOutput (msg : string)
| UserException (name : string).

(** The outcome of a call: a value, or a raised exception. *)
Inductive result (A : Type) : Type :=
| Ok (a : A)
| Raise (e : exn).
Arguments Ok {A} a.
Arguments Raise {A} e.

Definition returned {A} (r : result A) : bool :=
  match r with Ok _ => true | Raise _ => false end.

End Py.
Export Py.

(** ** The host and the CPU engine, as the code consumes them *)

Inductive byteorder : Type := LittleEndian | BigEndian.

(** What the Python runtime of the host decides: [sys.byteorder] (the
    order of a [struct] format without prefix), [bytes.decode()] (UTF-8,
    strict: [None] where it raises UnicodeDecodeError) and the second
    component of [os.path.split]. *)
Class Host : Type := {
  sys_byteorder : byteorder;
  bytes_decode : list byte -> option string;
  path_split_tail : string -> string
}.

(** The Unicorn engine behind [self.uc]: [mem_write] raises UcError on
    memory that is not mapped, [emu_stop] always succeeds.  The constant
    is [unicorn.x86_const.UC_X86_INS_SYSCALL]. *)
Class Unicorn (U : Type) : Type := {
  uc_mem_write : U -> Z -> list byte -> result U;
  uc_emu_stop : U -> U;
  UC_X86_INS_SYSCALL : Z
}.

(** The hook types [hook_add] is called with in core.py. *)
Inductive uc_hook_type : Type :=
| UC_HOOK_INTR | UC_HOOK_INSN | UC_HOOK_CODE | UC_HOOK_BLOCK
| UC_HOOK_MEM_UNMAPPED | UC_HOOK_MEM_READ_INVALID | UC_HOOK_MEM_WRITE_INVALID
| UC_HOOK_MEM_FETCH_INVALID | UC_HOOK_MEM_VALID
| UC_HOOK_MEM_READ | UC_HOOK_MEM_WRITE | UC_HOOK_MEM_FETCH.

(** ** [struct.pack] and [struct.unpack] for the formats of core.py *)

Module Struct.

(** A format is an optional ['>'] and one code. *)
Inductive prefix : Type := Native | Big.
Inductive code : Type := fmt_Q | fmt_q_signed | fmt_I | fmt_i_signed | fmt_H.

Definition size (c : code) : nat :=
  match c with
  | fmt_Q | fmt_q_signed => 8
  | fmt_I | fmt_i_signed => 4
  | fmt_H => 2
  end%nat.

Definition signed (c : code) : bool :=
  match c with fmt_q_signed | fmt_i_signed => true | _ => false end.

Definition order_of `{Host} (p : prefix) : byteorder :=
  match p with Native => sys_byteorder | Big => BigEndian end.

(** The value of a byte string read most significant byte first. *)
Definition be_combine (bs : list byte) : Z := le_combine (rev bs).

Definition min_value (c : code) : Z :=
  if signed c then - 2 ^ (8 * Z.of_nat (size c) - 1) else 0.
Definition max_value (c : code) : Z :=
  if signed c then 2 ^ (8 * Z.of_nat (size c) - 1) - 1
  else 2 ^ (8 * Z.of_nat (size c)) - 1.

(** [struct.pack(fmt, x)]: struct.error when [x] does not fit. *)
Definition pack `{Host} (p : prefix) (c : code) (x : Z) : result (list byte) :=
  if (min_value c <=? x) && (x <=? max_value c) then
    let le := le_split (size c) x in
    Ok (match order_of p with LittleEndian => le | BigEndian => rev le end)
  else Raise StructError.

(** [struct.unpack(fmt, bs)[0]]: struct.error when the length is not the
    size of the format. *)
Definition unpack `{Host} (p : prefix) (c : code) (bs : list byte) : result Z :=
  if (List.length bs =? size c)%nat then
    let u := match order_of p with
             | LittleEndian => le_combine bs
             | BigEndian => be_combine bs
             end in
    Ok (if signed c && (u >? max_value c)
        then u - 2 ^ (8 * Z.of_nat (size c)) else u)
  else Raise StructError.

End Struct.

(** ** The emulator object *)

(** Modelled from the spec: the constants of qiling.const that
    [self.output] holds after [output_convert], one per permitted output
    mode (default, off, disasm, debug, dump). *)
Inductive out_mode : Type :=
| QL_OUT_DEFAULT | QL_OUT_OFF | QL_OUT_DISASM | QL_OUT_DEBUG | QL_OUT_DUMP.

(** The two values of [archendian] (qiling.const). *)
Inductive endian : Type := QL_ENDIAN_EL | QL_ENDIAN_EB.

(** The stop reasons core.py names (qiling.os.linux.thread). *)
Inductive thread_event : Type :=
| THREAD_EVENT_EXIT_GROUP_EVENT | THREAD_EVENT_UNEXECPT_EVENT.

(** Modelled from the spec: the guest thread of qiling.os.linux.thread,
    of which [stop] uses the method [stop()] (mark the thread stopped) and
    the attribute [stop_event] (the reason). *)
Record ql_thread : Type := {
  td_stopped : bool;
  td_stop_event : option thread_event
}.

(** The thread manager: [cur_thread] may be None ([nprint] tests it). *)
Record thread_manager : Type := {
  cur_thread : option ql_thread
}.

Section Emulator.

Context {U : Type} `{Unicorn U} `{Host}.

(** The attributes of [Qiling] that the modelled methods read or write. *)
Record Qiling : Type := mkQiling {
  output : out_mode;
  verbose : pyval;
  archbit : Z;
  archendian : endian;
  patch_bin : list (Z * list byte);
  patch_lib : list (Z * list byte * string);
  loadbase : Z;
  map_info : list MapInfo.map_entry;
  internal_exception : option exn;
  thread_management : option thread_manager;
  uc : U
}.

Definition set_patch_bin (v : list (Z * list byte)) (ql : Qiling) : Qiling :=
  mkQiling (output ql) (verbose ql) (archbit ql) (archendian ql) v
    (patch_lib ql) (loadbase ql) (map_info ql) (internal_exception ql)
    (thread_management ql) (uc ql).

Definition set_patch_lib (v : list (Z * list byte * string)) (ql : Qiling)
    : Qiling :=
  mkQiling (output ql) (verbose ql) (archbit ql) (archendian ql) (patch_bin ql)
    v (loadbase ql) (map_info ql) (internal_exception ql)
    (thread_management ql) (uc ql).

Definition set_map_info (v : list MapInfo.map_entry) (ql : Qiling) : Qiling :=
  mkQiling (output ql) (verbose ql) (archbit ql) (archendian ql) (patch_bin ql)
    (patch_lib ql) (loadbase ql) v (internal_exception ql)
    (thread_management ql) (uc ql).

Definition set_internal_exception (v : option exn) (ql : Qiling) : Qiling :=
  mkQiling (output ql) (verbose ql) (archbit ql) (archendian ql) (patch_bin ql)
    (patch_lib ql) (loadbase ql) (map_info ql) v
    (thread_management ql) (uc ql).

Definition set_thread_management (v : option thread_manager) (ql : Qiling)
    : Qiling :=
  mkQiling (output ql) (verbose ql) (archbit ql) (archendian ql) (patch_bin ql)
    (patch_lib ql) (loadbase ql) (map_info ql) (internal_exception ql)
    v (uc ql).

Definition set_uc (v : U) (ql : Qiling) : Qiling :=
  mkQiling (output ql) (verbose ql) (archbit ql) (archendian ql) (patch_bin ql)
    (patch_lib ql) (loadbase ql) (map_info ql) (internal_exception ql)
    (thread_management ql) v.

(** A method: from the emulator before the call to the outcome and the
    emulator after it (what a method changed before it raised stays
    changed). *)
Definition M (A : Type) : Type := Qiling -> result A * Qiling.

Definition ret {A} (a : A) : M A := fun ql => (Ok a, ql).
Definition raise {A} (e : exn) : M A := fun ql => (Raise e, ql).
Definition bind {A B} (m : M A) (k : A -> M B) : M B :=
  fun ql => match m ql with
            | (Ok a, ql') => k a ql'
            | (Raise e, ql') => (Raise e, ql')
            end.

Notation "x <- m ;; k" := (bind m (fun x => k))
  (at level 61, m at next level, right associativity).
Notation "m ;;; k" := (bind m (fun _ => k))
  (at level 61, right associativity).

(** [for x in l: body(x)] *)
Fixpoint for_each {A} (l : list A) (body : A -> M unit) : M unit :=
  match l with
  | [] => ret tt
  | x :: rest => body x ;;; for_each rest body
  end.

(** *** The verbose/output gate (lines 217-218 of [__init__], 289-290 of
    [dprint]).  Python reads [A or B and (C and D)] as [A or (B and (C and
    D))], and evaluates [B] only when [A] is false. *)
Definition verbose_rejected (ql : Qiling) : bool :=
  match verbose ql with
  | VInt v =>
      (v >? 99) && ((v >? 0) &&
        negb (match output ql with
              | QL_OUT_DEBUG | QL_OUT_DUMP => true
              | _ => false
              end))
  | _ => true
  end.

Definition check_verbose (msg : string) : M unit :=
  fun ql => if verbose_rejected ql then raise (QlErrorOutput msg) ql
            else ret tt ql.

(** The gate of the constructor. *)
Definition init_check_verbose : M unit :=
  check_verbose "[!] verbose required input as int and less than 99".

(** The gate at the head of [dprint]. *)
Definition dprint_check_verbose : M unit :=
  check_verbose "[!] ql.verbose > 1 must use with QL_OUT_DEBUG, QL_OUT_DUMP or else ql.verbose must be 0".

(** *** Packing helpers (lines 519-589) *)

Definition pack64 (x : Z) : M (list byte) :=
  fun ql => (Struct.pack Struct.Native Struct.fmt_Q x, ql).

Definition unpack64 (x : list byte) : M Z :=
  fun ql => (Struct.unpack Struct.Native Struct.fmt_Q x, ql).

Definition unpack64s (x : list byte) : M Z :=
  fun ql => (Struct.unpack Struct.Native Struct.fmt_q_signed x, ql).

Definition pack32 (x : Z) : M (list byte) :=
  fun ql => match archendian ql with
            | QL_ENDIAN_EB => (Struct.pack Struct.Big Struct.fmt_I x, ql)
            | _ => (Struct.pack Struct.Native Struct.fmt_I x, ql)
            end.

Definition unpack32 (x : list byte) : M Z :=
  fun ql => match archendian ql with
            | QL_ENDIAN_EB => (Struct.unpack Struct.Big Struct.fmt_I x, ql)
            | _ => (Struct.unpack Struct.Native Struct.fmt_I x, ql)
            end.

Definition unpack32s (x : list byte) : M Z :=
  fun ql => match archendian ql with
            | QL_ENDIAN_EB => (Struct.unpack Struct.Big Struct.fmt_i_signed x, ql)
            | _ => (Struct.unpack Struct.Native Struct.fmt_i_signed x, ql)
            end.

(** A bare [raise] with no exception being handled is a RuntimeError. *)
Definition pack (data : Z) : M (list byte) :=
  fun ql => if archbit ql =? 64 then pack64 data ql
            else if archbit ql =? 32 then pack32 data ql
            else raise RuntimeError ql.

Definition unpack (data : list byte) : M Z :=
  fun ql => if archbit ql =? 64 then unpack64 data ql
            else if archbit ql =? 32 then unpack32 data ql
            else raise RuntimeError ql.

Definition unpacks (data : list byte) : M Z :=
  fun ql => if archbit ql =? 64 then unpack64s data ql
            else if archbit ql =? 32 then unpack32s data ql
            else raise RuntimeError ql.

(** *** The patch set (lines 593-597, 662-668, 726-730) *)

(** [file_name == b''], else [file_name.decode()]. *)
Definition patch (addr : Z) (code : list byte) (file_name : list byte) : M unit :=
  fun ql =>
    match file_name with
    | [] => (Ok tt, set_patch_bin (patch_bin ql ++ [(addr, code)]) ql)
    | _ =>
        match bytes_decode file_name with
        | Some label =>
            (Ok tt, set_patch_lib (patch_lib ql ++ [(addr, code, label)]) ql)
        | None => (Raise UnicodeDecodeError, ql)
        end
    end.

Definition mem_write (addr : Z) (data : list byte) : M unit :=
  fun ql => match uc_mem_write (uc ql) addr data with
            | Ok u => (Ok tt, set_uc u ql)
            | Raise e => (Raise e, ql)
            end.

(** The body of the loop of [__enable_bin_patch]. *)
Definition write_bin_patch (p : Z * list byte) : M unit :=
  fun ql => let '(addr, code) := p in mem_write (loadbase ql + addr) code ql.

Definition enable_bin_patch : M unit :=
  fun ql => for_each (patch_bin ql) write_bin_patch ql.

(** [__get_lib_base]: the start of the first entry whose label has the
    base name [filename], else -1. *)
Fixpoint lib_base_in (reg : list MapInfo.map_entry) (filename : string) : Z :=
  match reg with
  | [] => -1
  | (s, e, p, info) :: rest =>
      if (path_split_tail info =? filename)%string then s
      else lib_base_in rest filename
  end.

Definition get_lib_base (filename : string) (ql : Qiling) : Z :=
  lib_base_in (map_info ql) filename.

(** The body of the loop of [enable_lib_patch]. *)
Definition write_lib_patch (p : Z * list byte * string) : M unit :=
  fun ql => let '(addr, code, filename) := p in
            mem_write (get_lib_base filename ql + addr) code ql.

Definition enable_lib_patch : M unit :=
  fun ql => for_each (patch_lib ql) write_lib_patch ql.

(** [insert_map_info] as the method: it replaces [self.map_info]. *)
Definition ql_insert_map_info (mem_s mem_e : Z) (mem_p mem_info : string)
    : M unit :=
  fun ql => (Ok tt, set_map_info
                      (MapInfo.insert_map_info (map_info ql) mem_s mem_e mem_p mem_info)
                      ql).

End Emulator.

(** ** The hook bridge (lines 21-33, 317-503, 735-740) *)

Section HookBridge.

Context {U : Type} `{Unicorn U}.

Notation "m ;;; k" := (bind m (fun _ => k))
  (at level 61, right associativity).

(** A Python callable, called with positional arguments. *)
Definition pyfun : Type := list pyval -> @M U pyval.

(** The last argument the engine hands back to a registered callback:
    the tuple [(user_data, callback)] the bridge packed, or the bare
    [user_data] of a callback registered as it is. *)
Inductive hook_data : Type :=
| PackData (user_data : pyval) (callback : pyfun)
| UserData (user_data : pyval).

(** A callback as the engine calls it: the positional arguments the
    engine supplies ([uc] first), then the registered data. *)
Definition engine_cb : Type := list pyval -> hook_data -> @M U pyval.

(** [stop]: with a thread manager, [td = cur_thread; td.stop();
    td.stop_event = stop_event] (AttributeError when [td] is None), then
    [self.uc.emu_stop()]. *)
Definition stop (stop_event : thread_event) : @M U unit :=
  fun ql =>
    match thread_management ql with
    | Some tm =>
        match cur_thread tm with
        | Some td =>
            let td' := {| td_stopped := true;
                          td_stop_event := Some stop_event |} in
            let ql' := set_thread_management
                         (Some {| cur_thread := Some td' |}) ql in
            (Ok tt, set_uc (uc_emu_stop (uc ql')) ql')
        | None => (Raise AttributeError, ql)
        end
    | None => (Ok tt, set_uc (uc_emu_stop (uc ql)) ql)
    end.

(** The except clause of [catch_KeyboardInterrupt]: [ql.stop(...)] first,
    then [ql.internal_exception = e]; the wrapper then falls off its end
    and returns None. *)
Definition on_exception (e : exn) : @M U pyval :=
  stop THREAD_EVENT_UNEXECPT_EVENT ;;;
  (fun ql => (Ok VNone, set_internal_exception (Some e) ql)).

(** [catch_KeyboardInterrupt(ql)(func)]: [except BaseException] catches
    every exception [func] raises. *)
Definition catch_KeyboardInterrupt (func : engine_cb) : engine_cb :=
  fun args data ql =>
    match func args data ql with
    | (Ok v, ql') => (Ok v, ql')
    | (Raise e, ql') => on_exception e ql'
    end.

(** [_callback(uc, addr, size, pack_data)] of [hook_code] and [hook_block].
    A call with another number of arguments, or data that does not unpack
    into two, is a TypeError; the function has no return statement. *)
Definition code_callback : engine_cb :=
  fun args pack_data =>
    match args, pack_data with
    | [_; addr; size], PackData user_data callback =>
        (if truthy user_data
         then callback [VQl; addr; size; user_data]
         else callback [VQl; addr; size]) ;;; ret VNone
    | _, _ => raise TypeError
    end.

(** [_callback(uc, intno, pack_data)] of [hook_intr]. *)
Definition intr_callback : engine_cb :=
  fun args pack_data =>
    match args, pack_data with
    | [_; intno], PackData user_data callback =>
        (if truthy user_data
         then callback [VQl; intno; user_data]
         else callback [VQl; intno]) ;;; ret VNone
    | _, _ => raise TypeError
    end.

(** [_callback(uc, access, addr, size, value, pack_data)] of the eight
    [hook_mem_*] functions. *)
Definition mem_callback : engine_cb :=
  fun args pack_data =>
    match args, pack_data with
    | [_; _; addr; size; value], PackData user_data callback =>
        (if truthy user_data
         then callback [VQl; addr; size; value; user_data]
         else callback [VQl; addr; size; value]) ;;; ret VNone
    | _, _ => raise TypeError
    end.

(** [_callback(uc, _addr, _size, pack_data)] of [hook_address]. *)
Definition address_callback : engine_cb :=
  fun args pack_data =>
    match args, pack_data with
    | [_; _; _], PackData user_data callback =>
        (if truthy user_data
         then callback [VQl; user_data]
         else callback [VQl]) ;;; ret VNone
    | _, _ => raise TypeError
    end.

(** [_callback_x86_syscall(uc, pack_data)] of [hook_insn]. *)
Definition x86_syscall_callback : engine_cb :=
  fun args pack_data =>
    match args, pack_data with
    | [_], PackData user_data callback =>
        (if truthy user_data
         then callback [VQl; user_data]
         else callback [VQl]) ;;; ret VNone
    | _, _ => raise TypeError
    end.

(** The user's callable registered as it is (the else branch of
    [hook_insn]): the engine calls it with its own arguments and the
    registered [user_data]. *)
Definition direct_callback (callback : pyfun) : engine_cb :=
  fun args data =>
    match data with
    | UserData user_data => callback (args ++ [user_data])
    | PackData _ _ => raise TypeError
    end.

(** What [self.uc.hook_add(htype, cb, data, begin, end, arg1)] hands to
    the engine. *)
Record hook_registration : Type := {
  hk_type : uc_hook_type;
  hk_callback : engine_cb;
  hk_user_data : hook_data;
  hk_begin : Z;
  hk_end : Z;
  hk_arg1 : option Z
}.

Definition bridged (t : uc_hook_type) (inner : engine_cb)
    (callback : pyfun) (user_data : pyval) (begin end_ : Z)
    : hook_registration :=
  {| hk_type := t;
     hk_callback := catch_KeyboardInterrupt inner;
     hk_user_data := PackData user_data callback;
     hk_begin := begin; hk_end := end_; hk_arg1 := None |}.

Definition hook_code (callback : pyfun) (user_data : pyval) (begin end_ : Z) :=
  bridged UC_HOOK_CODE code_callback callback user_data begin end_.

Definition hook_intr (callback : pyfun) (user_data : pyval) (begin end_ : Z) :=
  bridged UC_HOOK_INTR intr_callback callback user_data begin end_.

Definition hook_block (callback : pyfun) (user_data : pyval) (begin end_ : Z) :=
  bridged UC_HOOK_BLOCK code_callback callback user_data begin end_.

Definition hook_mem_unmapped (callback : pyfun) (user_data : pyval)
    (begin end_ : Z) :=
  bridged UC_HOOK_MEM_UNMAPPED mem_callback callback user_data begin end_.

Definition hook_mem_read_invalid (callback : pyfun) (user_data : pyval)
    (begin end_ : Z) :=
  bridged UC_HOOK_MEM_READ_INVALID mem_callback callback user_data begin end_.

Definition hook_mem_write_invalid (callback : pyfun) (user_data : pyval)
    (begin end_ : Z) :=
  bridged UC_HOOK_MEM_WRITE_INVALID mem_callback callback user_data begin end_.

Definition hook_mem_fetch_invalid (callback : pyfun) (user_data : pyval)
    (begin end_ : Z) :=
  bridged UC_HOOK_MEM_FETCH_INVALID mem_callback callback user_data begin end_.

(** The source registers [hook_mem_invalid] as UC_HOOK_MEM_VALID. *)
Definition hook_mem_invalid (callback : pyfun) (user_data : pyval)
    (begin end_ : Z) :=
  bridged UC_HOOK_MEM_VALID mem_callback callback user_data begin end_.

Definition hook_address (callback : pyfun) (address : Z) (user_data : pyval) :=
  bridged UC_HOOK_CODE address_callback callback user_data address address.

Definition hook_mem_read (callback : pyfun) (user_data : pyval)
    (begin end_ : Z) :=
  bridged UC_HOOK_MEM_READ mem_callback callback user_data begin end_.

Definition hook_mem_write (callback : pyfun) (user_data : pyval)
    (begin end_ : Z) :=
  bridged UC_HOOK_MEM_WRITE mem_callback callback user_data begin end_.

Definition hook_mem_fetch (callback : pyfun) (user_data : pyval)
    (begin end_ : Z) :=
  bridged UC_HOOK_MEM_FETCH mem_callback callback user_data begin end_.

Definition hook_insn (callback : pyfun) (arg1 : Z) (user_data : pyval)
    (begin end_ : Z) : hook_registration :=
  if arg1 =? UC_X86_INS_SYSCALL then
    {| hk_type := UC_HOOK_INSN;
       hk_callback := catch_KeyboardInterrupt x86_syscall_callback;
       hk_user_data := PackData user_data callback;
       hk_begin := begin; hk_end := end_; hk_arg1 := Some arg1 |}
  else
    {| hk_type := UC_HOOK_INSN;
       hk_callback := direct_callback callback;
       hk_user_data := UserData user_data;
       hk_begin := begin; hk_end := end_; hk_arg1 := Some arg1 |}.

(** The engine firing a registered hook: it calls the registered callback
    with [uc], the fields of the event and the registered data. *)
Definition fire (r : hook_registration) (event : list pyval) : @M U pyval :=
  hk_callback r (VUc :: event) (hk_user_data r).

(** The registration functions of core.py other than [hook_insn], to
    quantify over them. *)
Inductive hook_api : Type :=
| api_hook_code | api_hook_intr | api_hook_block | api_hook_address
| api_hook_mem_unmapped | api_hook_mem_read_invalid
| api_hook_mem_write_invalid | api_hook_mem_fetch_invalid
| api_hook_mem_invalid | api_hook_mem_read | api_hook_mem_write
| api_hook_mem_fetch.

(** The call [hook_xxx(callback, user_data, begin, end)]; for
    [hook_address] the address is [begin]. *)
Definition register (api : hook_api) (callback : pyfun) (user_data : pyval)
    (begin end_ : Z) : hook_registration :=
  match api with
  | api_hook_code => hook_code callback user_data begin end_
  | api_hook_intr => hook_intr callback user_data begin end_
  | api_hook_block => hook_block callback user_data begin end_
  | api_hook_address => hook_address callback begin user_data
  | api_hook_mem_unmapped => hook_mem_unmapped callback user_data begin end_
  | api_hook_mem_read_invalid => hook_mem_read_invalid callback user_data begin end_
  | api_hook_mem_write_invalid => hook_mem_write_invalid callback user_data begin end_
  | api_hook_mem_fetch_invalid => hook_mem_fetch_invalid callback user_data begin end_
  | api_hook_mem_invalid => hook_mem_invalid callback user_data begin end_
  | api_hook_mem_read => hook_mem_read callback user_data begin end_
  | api_hook_mem_write => hook_mem_write callback user_data begin end_
  | api_hook_mem_fetch => hook_mem_fetch callback user_data begin end_
  end.

(** The number of event fields the engine supplies per hook, after [uc]:
    (addr, size) for code and block hooks, (intno) for interrupts,
    (access, addr, size, value) for memory hooks. *)
Definition event_arity (api : hook_api) : nat :=
  match api with
  | api_hook_code | api_hook_block | api_hook_address => 2
  | api_hook_intr => 1
  | _ => 4
  end%nat.

(** The event fields the bridge forwards to the user callback. *)
Definition forwarded (api : hook_api) (event : list pyval) : list pyval :=
  match api with
  | api_hook_code | api_hook_block | api_hook_intr => event
  | api_hook_address => []
  | _ => tl event
  end.

(** The state [stop] needs so as not to raise: a thread manager, when
    there is one, has a current thread. *)
Definition has_current_thread (ql : @Qiling U) : bool :=
  match thread_management ql with
  | Some tm => match cur_thread tm with Some _ => true | None => false end
  | None => true
  end.

(** The arguments a bridged wrapper calls the user callback with: the
    emulator, the forwarded event fields, and [user_data] when it is
    truthy. *)
Definition callback_args (fields : list pyval) (user_data : pyval)
    : list pyval :=
  VQl :: fields ++ (if truthy user_data then [user_data] else []).

(** The emulator after [stop(THREAD_EVENT_UNEXECPT_EVENT)] and the
    assignment of [e] to [internal_exception]. *)
Definition stopped_on (e : exn) (before after : @Qiling U) : Prop :=
  internal_exception after = Some e
  /\ uc after = uc_emu_stop (uc before)
  /\ thread_management after
     = match thread_management before with
       | Some _ =>
           Some {| cur_thread :=
                     Some {| td_stopped := true;
                             td_stop_event := Some THREAD_EVENT_UNEXECPT_EVENT |} |}
       | None => None
       end.

End HookBridge.

(** ** A concrete host and engine, to run the model on inputs *)

Module Concrete.

Fixpoint contains_slash (s : string) : bool :=
  match s with
  | EmptyString => false
  | String c rest => (Ascii.eqb c "/"%char) || contains_slash rest
  end.

(** [posixpath.split(p)[1]]: what follows the last slash. *)
Fixpoint posix_split_tail (s : string) : string :=
  match s with
  | EmptyString => EmptyString
  | String c rest =>
      if contains_slash rest then posix_split_tail rest
      else if Ascii.eqb c "/"%char then rest else s
  end.

(** Decoding restricted to ASCII, where UTF-8 maps each byte to the
    character of the same code; any other input is refused here. *)
Fixpoint ascii_decode (bs : list byte) : option string :=
  match bs with
  | [] => Some EmptyString
  | b :: rest =>
      if byte.unsigned b <? 128 then
        match ascii_decode rest with
        | Some s => Some (String (Ascii.ascii_of_byte b) s)
        | None => None
        end
      else None
  end.

#[export] Instance posix_little_host : Host := {|
  sys_byteorder := LittleEndian;
  bytes_decode := ascii_decode;
  path_split_tail := posix_split_tail
|}.

(** An engine that records what it is asked: the mapped ranges, the
    writes it accepted, and whether it was told to stop. *)
Record trace_uc : Type := {
  tu_mapped : list (Z * Z);
  tu_writes : list (Z * list byte);
  tu_stopped : bool
}.

Definition is_mapped (regions : list (Z * Z)) (addr len : Z) : bool :=
  existsb (fun '(lo, hi) => (lo <=? addr) && (addr + len <=? hi)) regions.

(** 7 is UC_ERR_WRITE_UNMAPPED. *)
Definition trace_mem_write (u : trace_uc) (addr : Z) (data : list byte)
    : result trace_uc :=
  if is_mapped (tu_mapped u) addr (Z.of_nat (List.length data)) then
    Ok {| tu_mapped := tu_mapped u;
          tu_writes := tu_writes u ++ [(addr, data)];
          tu_stopped := tu_stopped u |}
  else Raise (UcError 7).

Definition trace_emu_stop (u : trace_uc) : trace_uc :=
  {| tu_mapped := tu_mapped u; tu_writes := tu_writes u; tu_stopped := true |}.

#[export] Instance trace_unicorn : Unicorn trace_uc := {|
  uc_mem_write := trace_mem_write;
  uc_emu_stop := trace_emu_stop;
  UC_X86_INS_SYSCALL := 699
|}.

(** An engine with the low 64 KiB mapped and nothing written. *)
Definition fresh_uc : trace_uc :=
  {| tu_mapped := [(0, 0x10000)]; tu_writes := []; tu_stopped := false |}.

(** A freshly constructed emulator (the attribute values of [__init__]),
    for a 32-bit little-endian guest. *)
Definition fresh_ql : @Qiling trace_uc :=
  {| output := QL_OUT_DEFAULT; verbose := VInt 0;
     archbit := 32; archendian := QL_ENDIAN_EL;
     patch_bin := []; patch_lib := []; loadbase := 0; map_info := [];
     internal_exception := None; thread_management := None;
     uc := fresh_uc |}.

Definition with_arch (bits : Z) (e : endian) (ql : @Qiling trace_uc)
    : @Qiling trace_uc :=
  {| output := output ql; verbose := verbose ql;
     archbit := bits; archendian := e;
     patch_bin := patch_bin ql; patch_lib := patch_lib ql;
     loadbase := loadbase ql; map_info := map_info ql;
     internal_exception := internal_exception ql;
     thread_management := thread_management ql; uc := uc ql |}.

Definition with_verbose (v : pyval) (o : out_mode) (ql : @Qiling trace_uc)
    : @Qiling trace_uc :=
  {| output := o; verbose := v;
     archbit := archbit ql; archendian := archendian ql;
     patch_bin := patch_bin ql; patch_lib := patch_lib ql;
     loadbase := loadbase ql; map_info := map_info ql;
     internal_exception := internal_exception ql;
     thread_management := thread_management ql; uc := uc ql |}.

(** A user callback that raises KeyboardInterrupt. *)
Definition interrupted : @pyfun trace_uc :=
  fun _ ql => (Raise KeyboardInterrupt, ql).

(** Three calls that overlap each other, the last one below the rest. *)
Definition sample_calls : list MapInfo.map_entry :=
  [(0x1000, 0x5000, "r-x", "a"); (0x2000, 0x3000, "rw-", "b"); (0, 0x1000, "r--", "c")].

(** The three calls of the insert-and-coalesce scenario, on the empty
    registry. *)
Definition coalesce_scenario : list MapInfo.map_entry :=
  MapInfo.insert_all [(0x1000, 0x2000, "r-x", "a"); (0x3000, 0x4000, "r-x", "a");
              (0x2000, 0x3000, "r-x", "a")] [].

(** The bytes of "libc.so". *)
Definition libc_so : list byte := list_byte_of_string "libc.so".

(** A library patch whose label is not in the registry yet. *)
Definition pending_lib_patch : @Qiling trace_uc :=
  snd (@patch trace_uc posix_little_host
         0x10 [Byte.x90] libc_so fresh_ql).

(** A user callback written for a code hook without [user_data]
    ([def cb(ql, addr, size)]): any other number of arguments is a
    TypeError. *)
Definition three_params : @pyfun trace_uc :=
  fun args ql => if (List.length args =? 3)%nat then (Ok VNone, ql)
                 else (Raise TypeError, ql).

(** A new emulator whose thread manager has no current thread yet. *)
Definition no_current_thread_ql : @Qiling trace_uc :=
  set_thread_management (Some {| cur_thread := None |}) fresh_ql.

(** An emulator with three binary patches pending, the second one at an
    address that is not mapped. *)
Definition three_patches : @Qiling trace_uc :=
  snd (@patch trace_uc posix_little_host 0x30 [Byte.x90] []
    (snd (@patch trace_uc posix_little_host 0x20000 [Byte.xcc] []
      (snd (@patch trace_uc posix_little_host 0x10 [Byte.x90] [] fresh_ql))))).

End Concrete.

(** ** Further definitions: coverage of the registry, the remaining
      packing helpers, logging and the per-OS overrides *)

Module Registry.

(** The address [a] lies in the half-open range of an entry. *)
Definition in_range (a : Z) (x : MapInfo.map_entry) : Prop :=
  MapInfo.ent_start x <= a < MapInfo.ent_end x.

(** The address [a] is covered by some entry of the registry. *)
Definition covered (a : Z) (reg : list MapInfo.map_entry) : Prop :=
  Exists (in_range a) reg.

(** No label at hand (a label of the registry, or the label of the call)
    is equal to a permission string at hand: labels are paths or names
    such as [[stack]], permissions are strings such as [r-x]. *)
Definition labels_apart (reg : list MapInfo.map_entry)
    (mem_p mem_info : string) : Prop :=
  forall l q,
    In l (mem_info :: map MapInfo.ent_label reg) ->
    In q (mem_p :: map MapInfo.ent_perms reg) ->
    l <> q.

(** The address [a] lies in an entry labelled [l]. *)
Definition labelled (a : Z) (l : string) (reg : list MapInfo.map_entry) : Prop :=
  Exists (fun x => in_range a x /\ MapInfo.ent_label x = l) reg.

End Registry.

Section EmulatorMore.

Context {U : Type} `{Host}.

(** Lines 546-565: the helpers of core.py that [pack], [unpack] and
    [unpacks] do not call. *)
Definition unpack32s_ne (x : list byte) : @M U Z :=
  fun ql => (Struct.unpack Struct.Native Struct.fmt_i_signed x, ql).

Definition pack32s (x : Z) : @M U (list byte) :=
  fun ql => match archendian ql with
            | QL_ENDIAN_EB => (Struct.pack Struct.Big Struct.fmt_i_signed x, ql)
            | _ => (Struct.pack Struct.Native Struct.fmt_i_signed x, ql)
            end.

Definition unpack16 (x : list byte) : @M U Z :=
  fun ql => match archendian ql with
            | QL_ENDIAN_EB => (Struct.unpack Struct.Big Struct.fmt_H x, ql)
            | _ => (Struct.unpack Struct.Native Struct.fmt_H x, ql)
            end.

Definition pack16 (x : Z) : @M U (list byte) :=
  fun ql => match archendian ql with
            | QL_ENDIAN_EB => (Struct.pack Struct.Big Struct.fmt_H x, ql)
            | _ => (Struct.pack Struct.Native Struct.fmt_H x, ql)
            end.

(** A method that changes the engine only. *)
Definition engine_only (m : @M U unit) : Prop :=
  forall ql r ql', m ql = (r, ql') -> ql' = set_uc (uc ql') ql.

End EmulatorMore.

(** *** [dprint] (lines 288-297) *)

(** A call of [self.log_file_fd.debug]: the positional arguments and the
    keyword arguments it is made with. *)
Record log_call : Type := {
  lc_args : list pyval;
  lc_kw : list (string * pyval)
}.

(** IndexError, with the name it has in Python. *)
Definition IndexError : exn := UserException "IndexError".

Section Logging.

Context {U : Type}.

(** The two callables [dprint] hands its arguments to.  [str()] runs the
    [__str__] of its argument and may raise.  The debug method of the
    logger decides by itself what a call does: it takes its message as
    first positional argument or as keyword [msg], and raises TypeError
    on a call that gives none, or both. *)
Variable py_str : pyval -> result string.
Variable logger_debug : log_call -> result unit.

(** [dprint] with its level, positional and keyword arguments: the
    outcome, and the calls made to the debug method of the logger (none
    or one); the emulator is only read.  In debug mode the arguments go
    to the logger as they are, and the outcome is the logger's; in dump
    mode [args[0]] of no argument is an IndexError. *)
Definition dprint (level : Z) (args : list pyval) (kw : list (string * pyval))
    (ql : @Qiling U) : result unit * list log_call :=
  match fst (dprint_check_verbose ql) with
  | Raise e => (Raise e, [])
  | Ok _ =>
      match verbose ql with
      | VInt v =>
          if v >=? level then
            match output ql with
            | QL_OUT_DEBUG =>
                let c := {| lc_args := args; lc_kw := kw |} in
                (logger_debug c, [c])
            | QL_OUT_DUMP =>
                match args with
                | first :: _ =>
                    match py_str first with
                    | Ok msg =>
                        let c := {| lc_args := [VStr msg]; lc_kw := kw |} in
                        (logger_debug c, [c])
                    | Raise e => (Raise e, [])
                    end
                | [] => (Raise IndexError, [])
                end
            | _ => (Ok tt, [])
            end
          else (Ok tt, [])
      | _ => (Raise TypeError, [])
      end
  end.

End Logging.

(** *** Per-OS overrides ([set_syscall], [set_api], lines 305-314) *)

(** The OS tags of qiling.const that core.py names. *)
Inductive ql_ostype : Type := QL_LINUX | QL_FREEBSD | QL_MACOS | QL_WINDOWS.

(** The keys the two override dicts are used with: a syscall number or
    a name. *)
Inductive dict_key : Type :=
| KInt (z : Z)
| KStr (s : string).

Definition dict_key_eqb (a b : dict_key) : bool :=
  match a, b with
  | KInt x, KInt y => x =? y
  | KStr x, KStr y => (x =? y)%string
  | _, _ => false
  end.

Section Overrides.

(** The type of the callbacks stored. *)
Context {V : Type}.

(** A Python dict in insertion order: [d[k] = v] replaces the value of a
    key that is there and appends a new key. *)
Fixpoint dict_set (k : dict_key) (v : V) (d : list (dict_key * V))
    : list (dict_key * V) :=
  match d with
  | [] => [(k, v)]
  | (k', v') :: rest =>
      if dict_key_eqb k' k then (k', v) :: rest
      else (k', v') :: dict_set k v rest
  end.

Fixpoint dict_get (k : dict_key) (d : list (dict_key * V)) : option V :=
  match d with
  | [] => None
  | (k', v') :: rest => if dict_key_eqb k' k then Some v' else dict_get k rest
  end.

(** The attributes [set_syscall] and [set_api] read or write; [ostype]
    is None until it is given or detected. *)
Record os_overrides : Type := {
  ostype : option ql_ostype;
  dict_posix_syscall : list (dict_key * V);
  user_defined_api : list (dict_key * V)
}.

Definition set_api (api_name : dict_key) (api_func : V) (ql : os_overrides)
    : os_overrides :=
  match ostype ql with
  | Some QL_WINDOWS =>
      {| ostype := ostype ql;
         dict_posix_syscall := dict_posix_syscall ql;
         user_defined_api := dict_set api_name api_func (user_defined_api ql) |}
  | _ => ql
  end.

Definition set_syscall (syscall_cur : dict_key) (syscall_new : V)
    (ql : os_overrides) : os_overrides :=
  match ostype ql with
  | Some QL_LINUX | Some QL_MACOS | Some QL_FREEBSD =>
      {| ostype := ostype ql;
         dict_posix_syscall :=
           dict_set syscall_cur syscall_new (dict_posix_syscall ql);
         user_defined_api := user_defined_api ql |}
  | Some QL_WINDOWS => set_api syscall_cur syscall_new ql
  | None => ql
  end.

End Overrides.

(** *** The debugger spec of [run] (lines 239-247) *)

(** [s.split(sep)] for a separator of one character: the pieces between
    the separators, in order; the empty string gives one empty piece. *)
Fixpoint split_on (sep : ascii) (s : string) : list string :=
  match s with
  | EmptyString => [EmptyString]
  | String c rest =>
      if Ascii.eqb c sep then EmptyString :: split_on sep rest
      else match split_on sep rest with
           | piece :: pieces => String c piece :: pieces
           | [] => [String c EmptyString]
           end
  end.

Fixpoint contains_char (sep : ascii) (s : string) : bool :=
  match s with
  | EmptyString => false
  | String c rest => Ascii.eqb c sep || contains_char sep rest
  end.

(** The values of [self.debugger] the code provides for, besides None: a
    string, or True. *)
Inductive debugger_spec : Type :=
| DbgStr (s : string)
| DbgTrue.

(** ValueError, with the name it has in Python. *)
Definition ValueError : exn := UserException "ValueError".

(** The head of [run] for a debugger that is not None: the values of
    [remotedebugsrv], [ip] and [port] before [debugger_convert].  The
    three-way unpacking is tried first; when it raises, whatever the
    exception, the two-way unpacking is made outside any handler, with
    "gdb" as server.  True has no [split]. *)
Definition run_debugger_spec (debugger : debugger_spec)
    : result (string * string * string) :=
  match debugger with
  | DbgStr s =>
      match split_on ":" s with
      | [remotedebugsrv; ip; port] => Ok (remotedebugsrv, ip, port)
      | [ip; port] => Ok ("gdb", ip, port)
      | _ => Raise ValueError
      end
  | DbgTrue => Raise AttributeError
  end.

(** A [str()] and a debug method to run [dprint] with: strings print as
    they are, and the debug method wants its message once, as first
    positional argument or as keyword [msg]. *)
Definition sample_str (v : pyval) : result string :=
  match v with
  | VStr s => Ok s
  | _ => Ok "<value>"
  end.

Definition sample_debug (c : log_call) : result unit :=
  match lc_args c,
        existsb (fun p : string * pyval => (fst p =? "msg")%string) (lc_kw c) with
  | [], false => Raise TypeError
  | _ :: _, true => Raise TypeError
  | _, _ => Ok tt
  end.

(** The override tables of a Linux emulator, with the names of the
    callbacks as values. *)
Definition linux_overrides : @os_overrides string :=
  {| ostype := Some QL_LINUX; dict_posix_syscall := [(KInt 1, "old_write")];
     user_defined_api := [] |}.

(** *** The architecture step of the constructor (lines 196-202) *)




Section Construction.

Context {U : Type}.

(** The architecture tags, the tuple [QL_ENDINABLE] (qiling.const) and
    the function [ql_get_arch_bits] (qiling.utils) are defined outside
    core.py: the step takes them as they come. *)
Variable arch_tag : Type.
Variable arch_eqb : arch_tag -> arch_tag -> bool.
Variable QL_ENDINABLE : list arch_tag.
Variable ql_get_arch_bits : arch_tag -> Z.



End Construction.






(** * Properties *)

Import MapInfo.

(** ** Memory map registry *)

Lemma ordered_from_weaken (reg : list map_entry) :
  forall lo lo', lo' <= lo -> ordered_from lo reg -> ordered_from lo' reg.
Proof.
  destruct reg as [|x rest]; simpl; intros lo lo' Hle Hord; [exact I|].
  destruct Hord as (H1 & H2 & H3). repeat split; try assumption. lia.
Qed.

(** After the new range went in ([insert_flag] is 1), the rest of a
    chain that starts above [mem_s] comes out as a chain that starts at
    [mem_e] or above. *)
Lemma split_loop_inserted mem_s mem_e mem_p mem_info (reg : list map_entry) :
  forall lo, mem_s < lo -> ordered_from lo reg ->
    ordered_from (Z.max lo mem_e)
      (fst (split_loop mem_s mem_e mem_p mem_info true reg))
    /\ snd (split_loop mem_s mem_e mem_p mem_info true reg) = true.
Proof.
  induction reg as [|[[[s e] p] info] rest IH]; intros lo Hlo Hord.
  - simpl. auto.
  - simpl in Hord. destruct Hord as (Hs & Hse & Hrest).
    assert (Hms : mem_s < e) by lia.
    destruct (IH e Hms Hrest) as [IHo IHf].
    destruct (split_loop mem_s mem_e mem_p mem_info true rest) as [outs f] eqn:E.
    simpl in IHo, IHf. subst f.
    assert (Hw : ordered_from e outs /\ ordered_from mem_e outs).
    { split; apply ordered_from_weaken with (Z.max e mem_e); auto; lia. }
    destruct Hw as [Hwe Hwm].
    cbn [split_loop split_step].
    destruct (Z.leb_spec e mem_s); [lia|].
    destruct (Z.geb_spec s mem_e).
    + rewrite E. simpl. repeat split; try lia. assumption.
    + destruct (Z.ltb_spec s mem_s); [lia|].
      rewrite Z.gtb_ltb. destruct (Z.ltb_spec mem_e e); rewrite E; simpl.
      * repeat split; try lia. assumption.
      * split; [|reflexivity].
        apply ordered_from_weaken with mem_e; [lia|assumption].
Qed.

(** Before the new range went in, a chain comes out as a chain once the
    new range is appended where the loop left it out. *)
Lemma split_loop_pending mem_s mem_e mem_p mem_info (reg : list map_entry) :
  mem_s < mem_e ->
  forall lo, ordered_from lo reg ->
    ordered_from (Z.min lo mem_s)
      (if snd (split_loop mem_s mem_e mem_p mem_info false reg)
       then fst (split_loop mem_s mem_e mem_p mem_info false reg)
       else fst (split_loop mem_s mem_e mem_p mem_info false reg)
              ++ [(mem_s, mem_e, mem_p, mem_info)]).
Proof.
  intros Hne.
  induction reg as [|[[[s e] p] info] rest IH]; intros lo Hord.
  - simpl. lia.
  - simpl in Hord. destruct Hord as (Hs & Hse & Hrest).
    cbn [split_loop split_step].
    destruct (Z.leb_spec e mem_s).
    + specialize (IH e Hrest).
      destruct (split_loop mem_s mem_e mem_p mem_info false rest) as [outs f].
      simpl in IH |- *.
      assert (Hw : ordered_from e
                (if f then outs else outs ++ [(mem_s, mem_e, mem_p, mem_info)])).
      { apply ordered_from_weaken with (Z.min e mem_s); [lia|assumption]. }
      destruct f; simpl; repeat split; try lia; assumption.
    + assert (Hms : mem_s < e) by lia.
      destruct (split_loop_inserted mem_s mem_e mem_p mem_info rest e Hms Hrest)
        as [IHo IHf].
      destruct (split_loop mem_s mem_e mem_p mem_info true rest) as [outs f] eqn:E.
      simpl in IHo, IHf. subst f.
      assert (Hw : ordered_from e outs /\ ordered_from mem_e outs).
      { split; apply ordered_from_weaken with (Z.max e mem_e); auto; lia. }
      destruct Hw as [Hwe Hwm].
      destruct (Z.geb_spec s mem_e).
      * rewrite E. simpl. repeat split; try lia. assumption.
      * rewrite Z.gtb_ltb.
        destruct (Z.ltb_spec s mem_s); destruct (Z.ltb_spec mem_e e);
          rewrite E; simpl; repeat split; try lia; assumption.
Qed.

Lemma build_tmp_ordered reg mem_s mem_e mem_p mem_info lo :
  mem_s < mem_e -> ordered_from lo reg ->
  ordered_from (Z.min lo mem_s) (build_tmp reg mem_s mem_e mem_p mem_info).
Proof.
  intros Hne Hord. unfold build_tmp.
  destruct reg as [|x rest].
  - simpl. lia.
  - pose proof (split_loop_pending mem_s mem_e mem_p mem_info (x :: rest) Hne lo Hord) as P.
    destruct (split_loop mem_s mem_e mem_p mem_info false (x :: rest)) as [tmp flag].
    exact P.
Qed.

Lemma coalesce_ordered (tmp : list map_entry) :
  forall last lo, ordered_from lo (last :: tmp) ->
    ordered_from lo (coalesce last tmp).
Proof.
  induction tmp as [|[[[s e] p] info] rest IH]; intros [[[ls le] lp] linfo] lo Hord.
  - exact Hord.
  - simpl in Hord. destruct Hord as (H1 & H2 & H3 & H4 & H5).
    cbn [coalesce].
    destruct ((s =? le) && (info =? lp)%string) eqn:C.
    + apply IH. simpl. repeat split; try lia. assumption.
    + cbn [ordered_from]. repeat split; try assumption.
      apply IH. simpl. repeat split; try lia. assumption.
Qed.

Lemma split_step_pending_nonempty mem_s mem_e mem_p mem_info x :
  snd (split_step mem_s mem_e mem_p mem_info false x) = true ->
  fst (split_step mem_s mem_e mem_p mem_info false x) <> [].
Proof.
  destruct x as [[[s e] p] info]. unfold split_step.
  destruct (e <=? mem_s); [discriminate|].
  destruct (s >=? mem_e); simpl; [discriminate|].
  destruct (s <? mem_s); simpl; discriminate.
Qed.

Lemma split_loop_pending_nonempty mem_s mem_e mem_p mem_info (reg : list map_entry) :
  snd (split_loop mem_s mem_e mem_p mem_info false reg) = true ->
  fst (split_loop mem_s mem_e mem_p mem_info false reg) <> [].
Proof.
  induction reg as [|x rest IH]; [discriminate|].
  cbn [split_loop].
  pose proof (split_step_pending_nonempty mem_s mem_e mem_p mem_info x) as P.
  destruct (split_step mem_s mem_e mem_p mem_info false x) as [out flag].
  simpl in P. destruct flag.
  - destruct (split_loop mem_s mem_e mem_p mem_info true rest) as [outs f].
    simpl. intros _. destruct out; [now elim P|discriminate].
  - destruct (split_loop mem_s mem_e mem_p mem_info false rest) as [outs f].
    simpl in *. intros Hf. specialize (IH Hf).
    destruct out; simpl; [assumption|discriminate].
Qed.

(** [tmp_map_info] is never empty, so [tmp_map_info[0]] does not raise. *)
Lemma build_tmp_nonempty reg mem_s mem_e mem_p mem_info :
  build_tmp reg mem_s mem_e mem_p mem_info <> [].
Proof.
  unfold build_tmp. destruct reg as [|x rest]; [discriminate|].
  pose proof (split_loop_pending_nonempty mem_s mem_e mem_p mem_info (x :: rest)) as P.
  destruct (split_loop mem_s mem_e mem_p mem_info false (x :: rest)) as [tmp flag].
  simpl in P. destruct flag; [now apply P|].
  destruct tmp; discriminate.
Qed.

(** One call keeps the chain. *)
Lemma insert_map_info_ordered reg mem_s mem_e mem_p mem_info lo :
  mem_s < mem_e -> ordered_from lo reg ->
  ordered_from (Z.min lo mem_s) (insert_map_info reg mem_s mem_e mem_p mem_info).
Proof.
  intros Hne Hord. unfold insert_map_info.
  pose proof (build_tmp_ordered reg mem_s mem_e mem_p mem_info lo Hne Hord) as P.
  destruct (build_tmp reg mem_s mem_e mem_p mem_info) as [|first rest]; [exact I|].
  now apply coalesce_ordered.
Qed.

Lemma insert_all_well_formed (calls : list map_entry) :
  Forall (fun c => ent_start c < ent_end c) calls ->
  forall reg, well_formed reg -> well_formed (insert_all calls reg).
Proof.
  induction 1 as [|c calls Hc Hall IH]; intros reg Hwf; [exact Hwf|].
  simpl. apply IH. destruct Hwf as [lo Hlo].
  exists (Z.min lo (ent_start c)). now apply insert_map_info_ordered.
Qed.

Lemma ordered_from_nth (reg : list map_entry) :
  forall lo i a, ordered_from lo reg -> nth_error reg i = Some a ->
    lo <= ent_start a /\ ent_start a < ent_end a.
Proof.
  induction reg as [|x rest IH]; intros lo i a Hord Hn.
  - destruct i; discriminate.
  - simpl in Hord. destruct Hord as (H1 & H2 & H3). destruct i as [|i].
    + inversion Hn; subst. auto.
    + simpl in Hn. destruct (IH _ _ _ H3 Hn). split; lia.
Qed.

Lemma ordered_from_pair (reg : list map_entry) :
  forall lo i j a b, ordered_from lo reg -> (i < j)%nat ->
    nth_error reg i = Some a -> nth_error reg j = Some b ->
    ent_end a <= ent_start b /\ ent_start a < ent_start b.
Proof.
  induction reg as [|x rest IH]; intros lo i j a b Hord Hij Ha Hb.
  - destruct i; discriminate.
  - simpl in Hord. destruct Hord as (H1 & H2 & H3).
    destruct j as [|j]; [lia|]. simpl in Hb. destruct i as [|i].
    + inversion Ha; subst.
      destruct (ordered_from_nth _ _ _ _ H3 Hb). split; lia.
    + simpl in Ha. apply (IH (ent_end x) i j); auto. lia.
Qed.

Lemma well_formed_sorted reg : well_formed reg -> sorted_by_start reg.
Proof.
  intros [lo Hord] i j a b Hij Ha Hb.
  now destruct (ordered_from_pair reg lo i j a b Hord Hij Ha Hb).
Qed.

Lemma well_formed_non_overlapping reg : well_formed reg -> non_overlapping reg.
Proof.
  intros [lo Hord] i j a b Hij Ha Hb.
  destruct (Nat.lt_total i j) as [Hlt | [Heq | Hgt]]; [|contradiction|].
  - left. now destruct (ordered_from_pair reg lo i j a b Hord Hlt Ha Hb).
  - right. now destruct (ordered_from_pair reg lo j i b a Hord Hgt Hb Ha).
Qed.

(** C7: for every sequence of [insert_map_info] calls with start < end,
    made on the empty registry of a new emulator, the registry after
    every call (after each prefix of the sequence) is sorted by start and
    has no two overlapping entries. *)
Theorem insert_map_info_sorted_non_overlapping :
  forall (calls : list map_entry) (n : nat),
    Forall (fun c => ent_start c < ent_end c) calls ->
    sorted_by_start (insert_all (firstn n calls) [])
    /\ non_overlapping (insert_all (firstn n calls) []).
Proof.
  intros calls n Hall.
  assert (Hwf : well_formed (insert_all (firstn n calls) [])).
  { apply insert_all_well_formed.
    - rewrite Forall_forall in *. intros c Hc. apply Hall.
      rewrite <- (firstn_skipn n calls). apply in_or_app. now left.
    - exists 0. exact I. }
  split; [now apply well_formed_sorted | now apply well_formed_non_overlapping].
Qed.

Lemma insert_map_info_sorted_non_overlapping_witness :
  Forall (fun c => ent_start c < ent_end c) Concrete.sample_calls
  /\ sorted_by_start (insert_all (firstn 3 Concrete.sample_calls) [])
  /\ non_overlapping (insert_all (firstn 3 Concrete.sample_calls) []).
Proof.
  assert (Hall : Forall (fun c => ent_start c < ent_end c) Concrete.sample_calls).
  { unfold Concrete.sample_calls. repeat constructor; simpl; lia. }
  split; [exact Hall|].
  exact (insert_map_info_sorted_non_overlapping Concrete.sample_calls 3 Hall).
Defined.

(** C2: on the insert-and-coalesce scenario (0x1000-0x2000, 0x3000-0x4000,
    then 0x2000-0x3000, all "r-x" and labelled "a") the code leaves three
    entries and not the single entry (0x1000, 0x4000, "r-x", "a"): the
    second pass compares the label with the permissions of the previous
    entry, so adjacent entries with zero gap and equal labels stay. *)
Theorem insert_map_info_scenario_not_coalesced :
  Concrete.coalesce_scenario
    = [(0x1000, 0x2000, "r-x", "a"); (0x2000, 0x3000, "r-x", "a");
       (0x3000, 0x4000, "r-x", "a")]
  /\ Concrete.coalesce_scenario <> [(0x1000, 0x4000, "r-x", "a")]
  /\ ~ coalesced_by_label Concrete.coalesce_scenario.
Proof.
  assert (E : Concrete.coalesce_scenario
              = [(0x1000, 0x2000, "r-x", "a"); (0x2000, 0x3000, "r-x", "a");
                 (0x3000, 0x4000, "r-x", "a")]) by reflexivity.
  split; [exact E|]. rewrite E. split; [discriminate|].
  intros Hc.
  destruct (Hc 0%nat (0x1000, 0x2000, "r-x", "a") (0x2000, 0x3000, "r-x", "a")
              eq_refl eq_refl) as [Hgap | Hlabel].
  - simpl in Hgap. lia.
  - now apply Hlabel.
Qed.

(** What the second pass does merge: an entry that starts where the last
    one ends and whose label equals the permissions of the last one. *)
Lemma coalesce_merges_label_equal_to_perms ls le lp linfo e p rest :
  coalesce (ls, le, lp, linfo) ((le, e, p, lp) :: rest)
  = coalesce (ls, e, lp, linfo) rest.
Proof.
  cbn [coalesce]. now rewrite Z.eqb_refl, String.eqb_refl.
Qed.

(** C3: on the insert-and-split scenario, (0x2000, 0x3000, "rw-", "b")
    into [(0x1000, 0x5000, "r-x", "a")], the prefix and the suffix of the
    split entry keep the old label "a" but carry the permissions "rw-" of
    the incoming range, not the old "r-x". *)
Theorem insert_map_info_split_takes_new_perms :
  insert_map_info [(0x1000, 0x5000, "r-x", "a")] 0x2000 0x3000 "rw-" "b"
    = [(0x1000, 0x2000, "rw-", "a"); (0x2000, 0x3000, "rw-", "b");
       (0x3000, 0x5000, "rw-", "a")]
  /\ insert_map_info [(0x1000, 0x5000, "r-x", "a")] 0x2000 0x3000 "rw-" "b"
    <> [(0x1000, 0x2000, "r-x", "a"); (0x2000, 0x3000, "rw-", "b");
        (0x3000, 0x5000, "r-x", "a")].
Proof.
  split; [reflexivity|]. vm_compute. discriminate.
Qed.

(** The split in general: an entry that strictly contains the new range
    becomes prefix, new range and suffix, the outer two with the old
    label and the permissions of the call. *)
Lemma insert_map_info_split_shape s e p info mem_s mem_e mem_p mem_info :
  s < mem_s -> mem_s < mem_e -> mem_e < e ->
  build_tmp [(s, e, p, info)] mem_s mem_e mem_p mem_info
  = [(s, mem_s, mem_p, info); (mem_s, mem_e, mem_p, mem_info);
     (mem_e, e, mem_p, info)].
Proof.
  intros H1 H2 H3. unfold build_tmp. cbn [split_loop split_step].
  destruct (Z.leb_spec e mem_s); [lia|].
  destruct (Z.geb_spec s mem_e); [lia|].
  destruct (Z.ltb_spec s mem_s); [|lia].
  rewrite Z.gtb_ltb. destruct (Z.ltb_spec mem_e e); [|lia].
  reflexivity.
Qed.

(** The second pass leaves an appended entry alone when no entry before
    it ends where it starts. *)
Lemma coalesce_snoc_apart (rest : list map_entry) :
  forall first y,
    Forall (fun x => ent_end x < ent_start y) (first :: rest) ->
    coalesce first (rest ++ [y]) = coalesce first rest ++ [y].
Proof.
  induction rest as [|[[[s e] p] info] rest IH];
    intros [[[ls le] lp] linfo] [[[ys ye] yp] yinfo] Hall.
  - inversion Hall as [|? ? Hf _]; subst. simpl in Hf. cbn [coalesce app].
    destruct (Z.eqb_spec ys le); [lia|]. reflexivity.
  - inversion Hall as [|? ? Hf Hr]; subst.
    inversion Hr as [|? ? Hx Hr']; subst. simpl in Hf, Hx.
    cbn [coalesce app].
    destruct ((s =? le) && (info =? lp)%string).
    + apply IH. constructor; [simpl; lia | assumption].
    + cbn [app]. f_equal. apply IH. constructor; [simpl; lia | assumption].
Qed.

(** C8, as the code has it: an empty range is not ignored.  On the empty
    registry the call stores the zero-length entry, and on a registry
    whose entries all end below [start] the zero-length entry becomes the
    last entry of the registry. *)
Theorem insert_map_info_empty_range_inserted :
  forall (reg : list map_entry) (start : Z) (perms label : string),
    insert_map_info [] start start perms label = [(start, start, perms, label)]
    /\ (Forall (fun x => ent_end x < start) reg ->
        exists before,
          insert_map_info reg start start perms label
          = before ++ [(start, start, perms, label)]).
Proof.
  intros reg start perms label. split; [reflexivity|].
  intros Hall. destruct reg as [|x rest].
  - exists []. reflexivity.
  - assert (Hloop : forall l, Forall (fun x => ent_end x < start) l ->
              split_loop start start perms label false l = (l, false)).
    { induction l as [|[[[s e] p] info] l IHl]; intros Hl; [reflexivity|].
      inversion Hl as [|? ? Hx Hl']; subst. simpl in Hx.
      cbn [split_loop split_step].
      destruct (Z.leb_spec e start); [|lia].
      rewrite (IHl Hl'). reflexivity. }
    unfold insert_map_info, build_tmp. rewrite (Hloop _ Hall).
    cbn [app]. exists (coalesce x rest).
    apply coalesce_snoc_apart. exact Hall.
Qed.

Lemma insert_map_info_empty_range_inserted_witness :
  Forall (fun x => ent_end x < 0x3000) [(0x1000, 0x2000, "r-x", "a")]
  /\ exists before,
       insert_map_info [(0x1000, 0x2000, "r-x", "a")] 0x3000 0x3000 "rw-" "b"
       = before ++ [(0x3000, 0x3000, "rw-", "b")].
Proof.
  assert (Hall : Forall (fun x : map_entry => ent_end x < 0x3000)
                   [(0x1000, 0x2000, "r-x", "a")]).
  { repeat constructor. }
  split; [exact Hall|].
  exact (proj2 (insert_map_info_empty_range_inserted
                  [(0x1000, 0x2000, "r-x", "a")] 0x3000 "rw-" "b") Hall).
Defined.

(** C8, as the specification words it, fails: on the empty registry a call with
    start = end = 0x1000 changes the registry. *)
Lemma insert_map_info_empty_range_not_ignored :
  ~ (forall (reg : list map_entry) (start : Z) (perms label : string),
       insert_map_info reg start start perms label = reg).
Proof.
  intros Hc. specialize (Hc [] 0x1000 "r-x" "a"). discriminate Hc.
Qed.

(** ** Packing helpers *)

Lemma le_combine_le_split_small (n : nat) (x : Z) :
  0 <= x < 2 ^ (8 * Z.of_nat n) -> le_combine (le_split n x) = x.
Proof.
  intros Hx. rewrite le_combine_split.
  apply Z.mod_small. now rewrite Z.mul_comm.
Qed.

Lemma be_combine_rev_le_split_small (n : nat) (x : Z) :
  0 <= x < 2 ^ (8 * Z.of_nat n) -> Struct.be_combine (rev (le_split n x)) = x.
Proof.
  intros Hx. unfold Struct.be_combine. rewrite rev_involutive.
  now apply le_combine_le_split_small.
Qed.

(** [struct.pack] of an unsigned code on a value in range: the bytes, as
    many as the size of the code, hold the value in the order of the
    format. *)
Lemma struct_pack_unsigned (host : Host) (p : Struct.prefix) (c : Struct.code)
    (x : Z) :
  Struct.signed c = false ->
  0 <= x < 2 ^ (8 * Z.of_nat (Struct.size c)) ->
  exists bs,
    Struct.pack p c x = Ok bs
    /\ List.length bs = Struct.size c
    /\ match Struct.order_of p with
       | LittleEndian => le_combine bs = x
       | BigEndian => Struct.be_combine bs = x
       end.
Proof.
  intros Hs Hx. unfold Struct.pack, Struct.min_value, Struct.max_value.
  rewrite Hs.
  destruct (Z.leb_spec 0 x); [|lia].
  destruct (Z.leb_spec x (2 ^ (8 * Z.of_nat (Struct.size c)) - 1)); [|lia].
  simpl. destruct (Struct.order_of p); eexists; split; try reflexivity; split.
  - apply length_le_split.
  - now apply le_combine_le_split_small.
  - rewrite length_rev. apply length_le_split.
  - now apply be_combine_rev_le_split_small.
Qed.

Lemma struct_unpack_unsigned (host : Host) (p : Struct.prefix) (c : Struct.code)
    (bs : list byte) :
  Struct.signed c = false ->
  List.length bs = Struct.size c ->
  Struct.unpack p c bs
  = Ok match Struct.order_of p with
       | LittleEndian => le_combine bs
       | BigEndian => Struct.be_combine bs
       end.
Proof.
  intros Hs Hl. unfold Struct.unpack. rewrite Hs, Hl, Nat.eqb_refl.
  reflexivity.
Qed.

(** Width and byte order of [pack] and [unpack] as the code computes
    them, on a little-endian host: 8 bytes when [archbit] is 64 and 4
    bytes when it is 32.  The 32-bit helpers test [archendian]: big-endian
    exactly when it is QL_ENDIAN_EB.  The 64-bit helpers do not test it:
    they give the host order whatever [archendian] is (the defect
    [pack64_ignores_archendian] evaluates). *)
Theorem pack_unpack_width_and_order :
  forall (U : Type) (host : Host) (ql : @Qiling U),
    sys_byteorder = LittleEndian ->
    (archbit ql = 64 ->
       (forall x, 0 <= x < 2 ^ 64 ->
          exists bs, pack x ql = (Ok bs, ql)
                     /\ List.length bs = 8%nat /\ le_combine bs = x)
       /\ (forall bs, List.length bs = 8%nat ->
             unpack bs ql = (Ok (le_combine bs), ql)))
    /\ (archbit ql = 32 ->
       (forall x, 0 <= x < 2 ^ 32 ->
          exists bs, pack x ql = (Ok bs, ql)
                     /\ List.length bs = 4%nat
                     /\ match archendian ql with
                        | QL_ENDIAN_EB => Struct.be_combine bs = x
                        | QL_ENDIAN_EL => le_combine bs = x
                        end)
       /\ (forall bs, List.length bs = 4%nat ->
             unpack bs ql
             = (Ok match archendian ql with
                   | QL_ENDIAN_EB => Struct.be_combine bs
                   | QL_ENDIAN_EL => le_combine bs
                   end, ql)))
    /\ fst (@pack Concrete.trace_uc Concrete.posix_little_host 0x01020304
              (Concrete.with_arch 32 QL_ENDIAN_EB Concrete.fresh_ql))
       = Ok [Byte.x01; Byte.x02; Byte.x03; Byte.x04]
    /\ fst (@pack Concrete.trace_uc Concrete.posix_little_host 0x0102030405060708
              (Concrete.with_arch 64 QL_ENDIAN_EL Concrete.fresh_ql))
       = Ok [Byte.x08; Byte.x07; Byte.x06; Byte.x05;
             Byte.x04; Byte.x03; Byte.x02; Byte.x01].
Proof.
  intros U host ql Hhost. split; [|split; [|split; reflexivity]].
  - intros Hbit. split.
    + intros x Hx. unfold pack, pack64. rewrite Hbit. cbn [Z.eqb Pos.eqb].
      destruct (struct_pack_unsigned host Struct.Native Struct.fmt_Q x eq_refl Hx)
        as (bs & Hp & Hl & Ho).
      exists bs. rewrite Hp. cbn [Struct.order_of] in Ho. rewrite Hhost in Ho.
      auto.
    + intros bs Hl. unfold unpack, unpack64. rewrite Hbit. cbn [Z.eqb Pos.eqb].
      rewrite (struct_unpack_unsigned host Struct.Native Struct.fmt_Q bs eq_refl Hl).
      cbn [Struct.order_of]. now rewrite Hhost.
  - intros Hbit. split.
    + intros x Hx. unfold pack, pack32. rewrite Hbit. cbn [Z.eqb Pos.eqb].
      destruct (archendian ql).
      * destruct (struct_pack_unsigned host Struct.Native Struct.fmt_I x eq_refl Hx)
          as (bs & Hp & Hl & Ho).
        exists bs. rewrite Hp. cbn [Struct.order_of] in Ho. rewrite Hhost in Ho.
        auto.
      * destruct (struct_pack_unsigned host Struct.Big Struct.fmt_I x eq_refl Hx)
          as (bs & Hp & Hl & Ho).
        exists bs. rewrite Hp. cbn [Struct.order_of] in Ho. auto.
    + intros bs Hl. unfold unpack, unpack32. rewrite Hbit. cbn [Z.eqb Pos.eqb].
      destruct (archendian ql).
      * rewrite (struct_unpack_unsigned host Struct.Native Struct.fmt_I bs eq_refl Hl).
        cbn [Struct.order_of]. now rewrite Hhost.
      * now rewrite (struct_unpack_unsigned host Struct.Big Struct.fmt_I bs eq_refl Hl).
Qed.

Lemma pack_unpack_width_and_order_witness :
  @sys_byteorder Concrete.posix_little_host = LittleEndian
  /\ (archbit (Concrete.with_arch 64 QL_ENDIAN_EB Concrete.fresh_ql) = 64 ->
      forall bs, List.length bs = 8%nat ->
        @unpack Concrete.trace_uc Concrete.posix_little_host bs
          (Concrete.with_arch 64 QL_ENDIAN_EB Concrete.fresh_ql)
        = (Ok (le_combine bs), Concrete.with_arch 64 QL_ENDIAN_EB Concrete.fresh_ql)).
Proof.
  split; [reflexivity|]. intros Hbit.
  exact (proj2 (proj1 (pack_unpack_width_and_order Concrete.trace_uc
                         Concrete.posix_little_host
                         (Concrete.with_arch 64 QL_ENDIAN_EB Concrete.fresh_ql)
                         eq_refl) Hbit)).
Defined.


(** ** The verbose/output gate *)

(** What the gate rejects: a [verbose] that is not an int, or one above 99
    together with an output mode that is neither debug nor dump. *)
Lemma verbose_rejected_iff (U : Type) (ql : @Qiling U) :
  verbose_rejected ql = true <->
  type_is_int (verbose ql) = false
  \/ exists v, verbose ql = VInt v /\ v > 99
               /\ output ql <> QL_OUT_DEBUG /\ output ql <> QL_OUT_DUMP.
Proof.
  unfold verbose_rejected. split.
  - destruct (verbose ql) eqn:Ev; try (left; reflexivity).
    intros Hr. right. exists z.
    apply andb_prop in Hr. destruct Hr as [H99 Hr].
    apply andb_prop in Hr. destruct Hr as [_ Ho].
    rewrite Z.gtb_ltb in H99. apply Z.ltb_lt in H99.
    repeat split; try lia; destruct (output ql); discriminate.
  - intros [Hni | (v & Ev & Hv & Hd & Hdump)].
    + destruct (verbose ql); try reflexivity. discriminate.
    + rewrite Ev, !Z.gtb_ltb.
      destruct (Z.ltb_spec 99 v); [|lia]. destruct (Z.ltb_spec 0 v); [|lia].
      destruct (output ql); try reflexivity; contradiction.
Qed.

(** Every int verbose up to 99 passes the gate, whatever the output. *)
Lemma verbose_up_to_99_accepted (U : Type) (ql : @Qiling U) (v : Z) :
  verbose ql = VInt v -> v <= 99 ->
  init_check_verbose ql = (Ok tt, ql).
Proof.
  intros Ev Hv. unfold init_check_verbose, check_verbose, verbose_rejected.
  rewrite Ev, Z.gtb_ltb. destruct (Z.ltb_spec 99 v); [lia|]. reflexivity.
Qed.

(** C6: the gate of the constructor, and the same gate in [dprint], let
    through a verbose above 99 when the output mode is debug, and a
    verbose between 1 and 99 when the output mode is not debug or dump:
    no QlErrorOutput is raised for verbose=100 with debug, nor for
    verbose=5 with the default output. *)
Theorem verbose_gate_accepts_violations :
  fst (init_check_verbose
         (Concrete.with_verbose (VInt 100) QL_OUT_DEBUG Concrete.fresh_ql))
    = Ok tt
  /\ fst (init_check_verbose
            (Concrete.with_verbose (VInt 5) QL_OUT_DEFAULT Concrete.fresh_ql))
    = Ok tt
  /\ fst (dprint_check_verbose
            (Concrete.with_verbose (VInt 5) QL_OUT_DEFAULT Concrete.fresh_ql))
    = Ok tt.
Proof.
  repeat split.
Qed.

(** What the gate does reject on the same emulator: a verbose that is
    not an int, and one above 99 with another output mode. *)
Lemma verbose_gate_rejections :
  returned (fst (init_check_verbose
              (Concrete.with_verbose (VStr "1") QL_OUT_DEBUG Concrete.fresh_ql)))
    = false
  /\ returned (fst (init_check_verbose
              (Concrete.with_verbose (VBool true) QL_OUT_DEBUG Concrete.fresh_ql)))
    = false
  /\ returned (fst (init_check_verbose
              (Concrete.with_verbose (VInt 100) QL_OUT_OFF Concrete.fresh_ql)))
    = false.
Proof.
  repeat split.
Qed.

(** ** The patch set *)

Section PatchFacts.

Context {U : Type} {engine : Unicorn U} {host : Host}.

Lemma for_each_app {A} (body : A -> @M U unit) (l1 l2 : list A) (ql : Qiling) :
  for_each (l1 ++ l2) body ql
  = bind (for_each l1 body) (fun _ => for_each l2 body) ql.
Proof.
  revert ql. induction l1 as [|x l1 IH]; intros ql; [reflexivity|].
  cbn [app for_each]. unfold bind.
  destruct (body x ql) as [[[]|e] ql']; [|reflexivity].
  rewrite IH. reflexivity.
Qed.

Lemma for_each_snoc {A} (body : A -> @M U unit) (l : list A) (x : A)
    (ql : Qiling) :
  for_each (l ++ [x]) body ql
  = bind (for_each l body) (fun _ => body x) ql.
Proof.
  rewrite for_each_app. unfold bind.
  destruct (for_each l body ql) as [[[]|e] ql']; [|reflexivity].
  cbn [for_each]. unfold bind, ret.
  destruct (body x ql') as [[[]|e] ql'']; reflexivity.
Qed.

(** [__get_lib_base] on a label that no entry carries is -1. *)
Lemma lib_base_in_absent (reg : list map_entry) (filename : string) :
  Forall (fun x => path_split_tail (ent_label x) <> filename) reg ->
  lib_base_in reg filename = -1.
Proof.
  induction 1 as [|[[[s e] p] info] reg Hx Hall IH]; [reflexivity|].
  simpl in Hx |- *. destruct (String.eqb_spec (path_split_tail info) filename);
    [contradiction|assumption].
Qed.

(** [__get_lib_base] on a mapped label is the start of the first entry
    that carries it. *)
Lemma lib_base_in_first (before after : list map_entry) (x : map_entry)
    (filename : string) :
  Forall (fun y => path_split_tail (ent_label y) <> filename) before ->
  path_split_tail (ent_label x) = filename ->
  lib_base_in (before ++ x :: after) filename = ent_start x.
Proof.
  intros Hb Hx. induction Hb as [|[[[s e] p] info] before Hy Hall IH].
  - destruct x as [[[s e] p] info]. simpl in Hx |- *.
    now rewrite Hx, String.eqb_refl.
  - simpl in Hy |- *. destruct (String.eqb_spec (path_split_tail info) filename);
      [contradiction|assumption].
Qed.

(** [enable_lib_patch] writes every pending patch at the base its label
    resolves to plus the address, the sentinel -1 included: the patch
    appended last is written after the others, at
    [__get_lib_base(label) + addr]. *)
Lemma enable_lib_patch_snoc (ql : Qiling) (pending : list (Z * list byte * string))
    (addr : Z) (code : list byte) (label : string) :
  patch_lib ql = pending ++ [(addr, code, label)] ->
  enable_lib_patch ql
  = bind (for_each pending write_lib_patch)
         (fun _ ql' => mem_write (get_lib_base label ql' + addr) code ql') ql.
Proof.
  intros Hp. unfold enable_lib_patch. rewrite Hp. apply for_each_snoc.
Qed.

Lemma write_bin_patches_keep_loadbase (l : list (Z * list byte)) :
  forall (q q' : Qiling) r,
    for_each l write_bin_patch q = (r, q') -> loadbase q' = loadbase q.
Proof.
  induction l as [|[a c] l IHl]; intros q q' r Hq.
  - inversion Hq; subst. reflexivity.
  - cbn [for_each] in Hq. unfold bind, write_bin_patch, mem_write in Hq.
    destruct (uc_mem_write (uc q) (loadbase q + a) c) as [u|e'].
    + apply IHl in Hq. exact Hq.
    + inversion Hq; subst. reflexivity.
Qed.

(** [__enable_bin_patch] with (addr, code) last in the list: the earlier
    patches are written, then [code] at [loadbase + addr]. *)
Lemma enable_bin_patch_snoc (ql : Qiling) (pending : list (Z * list byte))
    (addr : Z) (code : list byte) :
  patch_bin ql = pending ++ [(addr, code)] ->
  enable_bin_patch ql
  = bind (for_each pending write_bin_patch)
         (fun _ => mem_write (loadbase ql + addr) code) ql.
Proof.
  intros Hp. unfold enable_bin_patch. rewrite Hp, for_each_snoc. unfold bind.
  destruct (for_each pending write_bin_patch ql) as [[[]|e] ql1] eqn:E;
    [|reflexivity].
  unfold write_bin_patch.
  now rewrite (write_bin_patches_keep_loadbase _ _ _ _ E).
Qed.

(** C9, as the code has it: [patch(addr, code, label)], the label given
    as bytes.  With the label empty (or left out: the default is the empty
    bytes), (addr, code) goes to the end of the binary-patch list, the
    library-patch list stays, and whenever the binary patches are applied
    later, the earlier ones are written and then [code] at
    [loadbase + addr].  With a label that is not empty and that [decode()]
    turns into the text [label], (addr, code, label) goes to the end of
    the library-patch list and the binary-patch list stays.  With a label
    that is not empty and that [decode()] refuses, the call raises
    UnicodeDecodeError and both lists stay as they were. *)
Theorem patch_appends_to_one_list :
  forall (ql : @Qiling U) (addr : Z) (code file_name : list byte),
    (file_name = [] ->
       exists ql' : @Qiling U,
         patch addr code file_name ql = (Ok tt, ql')
         /\ patch_bin ql' = patch_bin ql ++ [(addr, code)]
         /\ patch_lib ql' = patch_lib ql
         /\ forall later : @Qiling U,
              patch_bin later = patch_bin ql' ->
              enable_bin_patch later
              = bind (for_each (patch_bin ql) write_bin_patch)
                     (fun _ => mem_write (loadbase later + addr) code) later)
    /\ (file_name <> [] ->
        forall label, bytes_decode file_name = Some label ->
          exists ql' : @Qiling U,
            patch addr code file_name ql = (Ok tt, ql')
            /\ patch_lib ql' = patch_lib ql ++ [(addr, code, label)]
            /\ patch_bin ql' = patch_bin ql)
    /\ (file_name <> [] -> bytes_decode file_name = None ->
        patch addr code file_name ql = (Raise UnicodeDecodeError, ql)).
Proof.
  intros ql addr code file_name. split; [|split].
  - intros ->. eexists. split; [reflexivity|]. repeat split.
    intros later Hl. apply enable_bin_patch_snoc. exact Hl.
  - intros Hne label Hd. destruct file_name as [|b rest]; [contradiction|].
    eexists. unfold patch. rewrite Hd. split; [reflexivity|]. split; reflexivity.
  - intros Hne Hd. destruct file_name as [|b rest]; [contradiction|].
    unfold patch. now rewrite Hd.
Qed.

(** A non-empty label that [decode()] refuses: the call raises and both
    lists stay as they were. *)
Lemma patch_undecodable_label (ql : @Qiling U) (addr : Z)
    (code file_name : list byte) :
  file_name <> [] -> bytes_decode file_name = None ->
  patch addr code file_name ql = (Raise UnicodeDecodeError, ql).
Proof.
  intros Hne Hd. destruct file_name as [|b rest]; [contradiction|].
  unfold patch. now rewrite Hd.
Qed.

End PatchFacts.

Lemma patch_appends_to_one_list_witness :
  Concrete.libc_so <> []
  /\ @bytes_decode Concrete.posix_little_host Concrete.libc_so = Some "libc.so"
  /\ exists ql',
       @patch Concrete.trace_uc Concrete.posix_little_host 0x10 [Byte.x90] Concrete.libc_so
         Concrete.fresh_ql = (Ok tt, ql')
       /\ patch_lib ql' = patch_lib Concrete.fresh_ql ++ [(0x10, [Byte.x90], "libc.so")]
       /\ patch_bin ql' = patch_bin Concrete.fresh_ql.
Proof.
  assert (Hne : Concrete.libc_so <> []) by discriminate.
  assert (Hd : @bytes_decode Concrete.posix_little_host Concrete.libc_so = Some "libc.so")
    by reflexivity.
  split; [exact Hne|]. split; [exact Hd|].
  exact (proj1 (proj2 (@patch_appends_to_one_list Concrete.trace_uc
                         Concrete.trace_unicorn Concrete.posix_little_host
                         Concrete.fresh_ql 0x10 [Byte.x90] Concrete.libc_so))
               Hne "libc.so" Hd).
Defined.

(** C9, as the specification words it, fails on a label that is not
    text: b"\xff" is not empty and is no UTF-8 (no UTF-8 sequence holds
    the byte 0xff), so [file_name.decode()] raises UnicodeDecodeError
    before [append] is reached.  On a new emulator the call raises, the
    library-patch list is still empty, and no label makes it the old list
    with (0x10, b"\x90", label) appended. *)
Lemma patch_undecodable_label_not_appended :
  let r := @patch Concrete.trace_uc Concrete.posix_little_host
             0x10 [Byte.x90] [Byte.xff] Concrete.fresh_ql in
  [Byte.xff] <> ([] : list byte)
  /\ fst r = Raise UnicodeDecodeError
  /\ patch_lib (snd r) = []
  /\ patch_bin (snd r) = []
  /\ ~ (exists label : string,
          patch_lib (snd r)
          = patch_lib Concrete.fresh_ql ++ [(0x10, [Byte.x90], label)]).
Proof.
  cbv zeta. split; [discriminate|]. split; [reflexivity|].
  split; [reflexivity|]. split; [reflexivity|].
  intros [label Hl]. discriminate Hl.
Qed.

(** A binary patch on a new emulator is written at [loadbase + addr]. *)
Lemma patch_bin_then_run_writes :
  let ql := snd (@patch Concrete.trace_uc Concrete.posix_little_host
                   0x10 [Byte.x90] [] Concrete.fresh_ql) in
  fst (@enable_bin_patch _ Concrete.trace_unicorn ql) = Ok tt
  /\ Concrete.tu_writes (uc (snd (@enable_bin_patch _ Concrete.trace_unicorn ql))) = [(0x10, [Byte.x90])].
Proof.
  split; reflexivity.
Qed.

(** C4: with the library patch (0x10, b"\x90", "libc.so") pending and no
    entry for libc.so in the registry, the base lookup gives -1 and
    [enable_lib_patch] does not skip the patch: it writes the byte at
    -1 + 0x10 = 0xf. *)
Theorem enable_lib_patch_writes_at_sentinel :
  patch_lib Concrete.pending_lib_patch = [(0x10, [Byte.x90], "libc.so")]
  /\ map_info Concrete.pending_lib_patch = []
  /\ @get_lib_base _ Concrete.posix_little_host "libc.so" Concrete.pending_lib_patch = -1
  /\ fst (@enable_lib_patch _ Concrete.trace_unicorn Concrete.posix_little_host Concrete.pending_lib_patch) = Ok tt
  /\ Concrete.tu_writes (uc (snd (@enable_lib_patch _ Concrete.trace_unicorn Concrete.posix_little_host Concrete.pending_lib_patch)))
     = [(0xf, [Byte.x90])].
Proof.
  repeat split.
Qed.

(** The same patch once libc.so is mapped at 0x4000: written at the base
    plus the address. *)
Lemma enable_lib_patch_mapped_label :
  let ql := set_map_info
              (insert_map_info [] 0x4000 0x5000 "r-x" "/lib/libc.so")
              Concrete.pending_lib_patch in
  @get_lib_base _ Concrete.posix_little_host "libc.so" ql = 0x4000
  /\ Concrete.tu_writes (uc (snd (@enable_lib_patch _ Concrete.trace_unicorn Concrete.posix_little_host ql))) = [(0x4010, [Byte.x90])].
Proof.
  split; reflexivity.
Qed.

(** ** The hook bridge *)

Section HookFacts.

Context {U : Type} {engine : Unicorn U}.

(** Unfold a registration down to the inner callback of its wrapper. *)
Ltac open_registration :=
  cbn [register hook_code hook_intr hook_block hook_address hook_mem_unmapped
       hook_mem_read_invalid hook_mem_write_invalid hook_mem_fetch_invalid
       hook_mem_invalid hook_mem_read hook_mem_write hook_mem_fetch
       bridged fire hk_callback hk_user_data forwarded tl app];
  unfold catch_KeyboardInterrupt, code_callback, intr_callback, mem_callback,
    address_callback, x86_syscall_callback.

(** Case analysis on the outcome of the user callback in the goal. *)
Ltac case_callback cb ql :=
  match goal with
  | |- context [cb ?a ql] => destruct (cb a ql) as [[?v|?e] ?ql']
  end.

Lemma on_exception_stops (e : exn) (ql : @Qiling U) :
  has_current_thread ql = true ->
  exists ql', on_exception e ql = (Ok VNone, ql') /\ stopped_on e ql ql'.
Proof.
  unfold has_current_thread, on_exception, bind, stop, stopped_on.
  intros Hc. destruct (thread_management ql) as [[[td|]]|] eqn:Et;
    try discriminate; eexists; (split; [reflexivity|]); cbn; rewrite ?Et; auto.
Qed.

(** The wrapper around any inner function: a normal return passes, an
    exception is recorded and turned into a normal return. *)
Lemma catch_KeyboardInterrupt_returns (inner : engine_cb) args data
    (ql ql' : @Qiling U) v :
  inner args data ql = (Ok v, ql') ->
  catch_KeyboardInterrupt inner args data ql = (Ok v, ql').
Proof.
  intros Hi. unfold catch_KeyboardInterrupt. now rewrite Hi.
Qed.

Lemma catch_KeyboardInterrupt_catches (inner : engine_cb) args data
    (ql ql' : @Qiling U) e :
  inner args data ql = (Raise e, ql') ->
  has_current_thread ql' = true ->
  exists ql'',
    catch_KeyboardInterrupt inner args data ql = (Ok VNone, ql'')
    /\ stopped_on e ql' ql''.
Proof.
  intros Hi Hc. unfold catch_KeyboardInterrupt. rewrite Hi.
  now apply on_exception_stops.
Qed.

(** A bridged wrapper fired with the event fields of its hook calls the
    user callback with [callback_args]; what the callback returns is
    dropped. *)
Lemma fire_register (api : hook_api) (callback : pyfun) (user_data : pyval)
    (begin end_ : Z) (event : list pyval) (ql : @Qiling U) :
  List.length event = event_arity api ->
  fire (register api callback user_data begin end_) event ql
  = match callback (callback_args (forwarded api event) user_data) ql with
    | (Ok _, ql') => (Ok VNone, ql')
    | (Raise e, ql') => on_exception e ql'
    end.
Proof.
  intros Hlen. unfold callback_args.
  destruct api; cbn [event_arity] in Hlen;
    repeat (destruct event as [|? event]; try discriminate Hlen);
    open_registration; unfold bind, ret;
    destruct (truthy user_data); cbn [app];
    case_callback callback ql; reflexivity.
Qed.

Lemma fire_hook_insn_syscall (callback : pyfun) (user_data : pyval)
    (begin end_ : Z) (ql : @Qiling U) :
  fire (hook_insn callback UC_X86_INS_SYSCALL user_data begin end_) [] ql
  = match callback (callback_args [] user_data) ql with
    | (Ok _, ql') => (Ok VNone, ql')
    | (Raise e, ql') => on_exception e ql'
    end.
Proof.
  unfold hook_insn, callback_args. rewrite Z.eqb_refl.
  open_registration. unfold bind, ret.
  destruct (truthy user_data); case_callback callback ql; reflexivity.
Qed.

(** C1, as the code has it.  For a hook registered by [hook_code],
    [hook_block], [hook_intr], [hook_address] or a [hook_mem_*] function,
    and for [hook_insn] with the x86 SYSCALL instruction: when the user
    callback raises [e], leaving an emulator whose thread manager (if
    any) has a current thread, the wrapper returns None to the engine,
    [internal_exception] holds [e], the current thread is marked stopped
    with the unexpected-event reason and the engine was told to stop.
    When the user callback returns, the wrapper returns None too. *)
Theorem bridged_callback_exception_is_caught :
  forall (callback : pyfun) (user_data : pyval) (begin end_ : Z)
         (ql ql' : @Qiling U),
    (forall (api : hook_api) (event : list pyval),
        List.length event = event_arity api ->
        (forall e,
            callback (callback_args (forwarded api event) user_data) ql
              = (Raise e, ql') ->
            has_current_thread ql' = true ->
            exists ql'',
              fire (register api callback user_data begin end_) event ql
                = (Ok VNone, ql'')
              /\ stopped_on e ql' ql'')
        /\ (forall v,
            callback (callback_args (forwarded api event) user_data) ql
              = (Ok v, ql') ->
            fire (register api callback user_data begin end_) event ql
              = (Ok VNone, ql')))
    /\ (forall e,
          callback (callback_args [] user_data) ql = (Raise e, ql') ->
          has_current_thread ql' = true ->
          exists ql'',
            fire (hook_insn callback UC_X86_INS_SYSCALL user_data begin end_) [] ql
              = (Ok VNone, ql'')
            /\ stopped_on e ql' ql'')
    /\ (forall v,
          callback (callback_args [] user_data) ql = (Ok v, ql') ->
          fire (hook_insn callback UC_X86_INS_SYSCALL user_data begin end_) [] ql
            = (Ok VNone, ql')).
Proof.
  intros callback user_data begin end_ ql ql'. split; [|split].
  - intros api event Hlen. split.
    + intros e Hcb Hc. rewrite (fire_register _ _ _ _ _ _ _ Hlen), Hcb.
      now apply on_exception_stops.
    + intros v Hcb. now rewrite (fire_register _ _ _ _ _ _ _ Hlen), Hcb.
  - intros e Hcb Hc. rewrite fire_hook_insn_syscall, Hcb.
    now apply on_exception_stops.
  - intros v Hcb. now rewrite fire_hook_insn_syscall, Hcb.
Qed.

(** C10: for [hook_code], [hook_block], [hook_intr], [hook_address] and
    the [hook_mem_*] functions, a registration with a falsy [user_data]
    fires exactly like one with None, whatever the event, and on the
    event fields of its hook the user callback is called with the
    emulator and those fields only, without [user_data]. *)
Theorem falsy_user_data_is_not_passed :
  forall (api : hook_api) (callback : pyfun) (user_data : pyval)
         (begin end_ : Z) (event : list pyval) (ql : @Qiling U),
    truthy user_data = false ->
    fire (register api callback user_data begin end_) event ql
      = fire (register api callback VNone begin end_) event ql
    /\ (List.length event = event_arity api ->
        fire (register api callback user_data begin end_) event ql
        = match callback (VQl :: forwarded api event) ql with
          | (Ok _, ql') => (Ok VNone, ql')
          | (Raise e, ql') => on_exception e ql'
          end).
Proof.
  intros api callback user_data begin end_ event ql Hf. split.
  - destruct api; open_registration; rewrite Hf; reflexivity.
  - intros Hlen. rewrite (fire_register _ _ _ _ _ _ _ Hlen). unfold callback_args.
    rewrite Hf, app_nil_r. reflexivity.
Qed.

(** The other half: a truthy [user_data] is passed as the last argument. *)
Lemma truthy_user_data_is_passed (api : hook_api) (callback : pyfun)
    (user_data : pyval) (begin end_ : Z) (event : list pyval) (ql : @Qiling U) :
  truthy user_data = true ->
  List.length event = event_arity api ->
  fire (register api callback user_data begin end_) event ql
  = match callback (VQl :: forwarded api event ++ [user_data]) ql with
    | (Ok _, ql') => (Ok VNone, ql')
    | (Raise e, ql') => on_exception e ql'
    end.
Proof.
  intros Ht Hlen. rewrite (fire_register _ _ _ _ _ _ _ Hlen).
  unfold callback_args. now rewrite Ht.
Qed.

(** Without a current thread in an active thread manager, [stop] raises
    inside the except clause, before the exception is recorded. *)
Lemma on_exception_without_current_thread (e : exn) (ql : @Qiling U) :
  has_current_thread ql = false ->
  on_exception e ql = (Raise AttributeError, ql).
Proof.
  unfold has_current_thread, on_exception, bind, stop.
  destruct (thread_management ql) as [[[td|]]|]; try discriminate. reflexivity.
Qed.

End HookFacts.

Lemma bridged_callback_exception_is_caught_witness :
  List.length [VInt 0x1000; VInt 4] = event_arity api_hook_code
  /\ Concrete.interrupted
       (callback_args (forwarded api_hook_code [VInt 0x1000; VInt 4]) VNone)
       Concrete.fresh_ql
     = (Raise KeyboardInterrupt, Concrete.fresh_ql)
  /\ has_current_thread Concrete.fresh_ql = true
  /\ exists ql'',
       fire (@register _ Concrete.trace_unicorn api_hook_code
               Concrete.interrupted VNone 1 0)
            [VInt 0x1000; VInt 4] Concrete.fresh_ql
       = (Ok VNone, ql'')
       /\ @stopped_on _ Concrete.trace_unicorn KeyboardInterrupt
            Concrete.fresh_ql ql''.
Proof.
  assert (Hlen : List.length [VInt 0x1000; VInt 4] = event_arity api_hook_code)
    by reflexivity.
  assert (Hcb : Concrete.interrupted
                  (callback_args (forwarded api_hook_code [VInt 0x1000; VInt 4]) VNone)
                  Concrete.fresh_ql
                = (Raise KeyboardInterrupt, Concrete.fresh_ql)) by reflexivity.
  assert (Hc : has_current_thread Concrete.fresh_ql = true) by reflexivity.
  split; [exact Hlen|]. split; [exact Hcb|]. split; [exact Hc|].
  exact (proj1 (proj1 (@bridged_callback_exception_is_caught _ Concrete.trace_unicorn
                         Concrete.interrupted VNone 1 0
                         Concrete.fresh_ql Concrete.fresh_ql)
                      api_hook_code [VInt 0x1000; VInt 4] Hlen)
               KeyboardInterrupt Hcb Hc).
Defined.

(** C1, as the specification words it, fails for [hook_insn]: registered for an
    instruction other than x86 SYSCALL (here 700, SYSENTER), the callback
    is handed to the engine as it is, and a KeyboardInterrupt it raises
    reaches the engine; nothing is recorded and the engine is not
    stopped. *)
Lemma hook_insn_other_instruction_not_bridged :
  700 <> @UC_X86_INS_SYSCALL _ Concrete.trace_unicorn
  /\ fire (@hook_insn _ Concrete.trace_unicorn Concrete.interrupted 700 VNone 1 0)
          [] Concrete.fresh_ql
     = (Raise KeyboardInterrupt, Concrete.fresh_ql)
  /\ internal_exception
       (snd (fire (@hook_insn _ Concrete.trace_unicorn Concrete.interrupted
                     700 VNone 1 0) [] Concrete.fresh_ql)) = None
  /\ Concrete.tu_stopped
       (uc (snd (fire (@hook_insn _ Concrete.trace_unicorn Concrete.interrupted
                         700 VNone 1 0) [] Concrete.fresh_ql))) = false.
Proof.
  split; [discriminate|]. repeat split.
Qed.

Lemma falsy_user_data_is_not_passed_witness :
  truthy (VDict []) = false
  /\ List.length [VInt 0x1000; VInt 4] = event_arity api_hook_code
  /\ fire (@register _ Concrete.trace_unicorn api_hook_code
             Concrete.three_params (VDict []) 1 0)
          [VInt 0x1000; VInt 4] Concrete.fresh_ql
     = fire (@register _ Concrete.trace_unicorn api_hook_code
               Concrete.three_params VNone 1 0)
            [VInt 0x1000; VInt 4] Concrete.fresh_ql.
Proof.
  assert (Hf : truthy (VDict []) = false) by reflexivity.
  assert (Hlen : List.length [VInt 0x1000; VInt 4] = event_arity api_hook_code)
    by reflexivity.
  split; [exact Hf|]. split; [exact Hlen|].
  exact (proj1 (@falsy_user_data_is_not_passed _ Concrete.trace_unicorn
                  api_hook_code Concrete.three_params (VDict []) 1 0
                  [VInt 0x1000; VInt 4] Concrete.fresh_ql Hf)).
Defined.

(** Three falsy values (0, the empty string, the empty dict) and a truthy one, on a code
    hook whose callback takes no [user_data]: only the truthy value makes
    the call fail (the TypeError is caught and recorded). *)
Lemma user_data_examples :
  fst (fire (@register _ Concrete.trace_unicorn api_hook_code
               Concrete.three_params (VInt 0) 1 0)
            [VInt 0x1000; VInt 4] Concrete.fresh_ql) = Ok VNone
  /\ internal_exception
       (snd (fire (@register _ Concrete.trace_unicorn api_hook_code
                     Concrete.three_params (VStr "") 1 0)
                  [VInt 0x1000; VInt 4] Concrete.fresh_ql)) = None
  /\ internal_exception
       (snd (fire (@register _ Concrete.trace_unicorn api_hook_code
                     Concrete.three_params (VDict []) 1 0)
                  [VInt 0x1000; VInt 4] Concrete.fresh_ql)) = None
  /\ internal_exception
       (snd (fire (@register _ Concrete.trace_unicorn api_hook_code
                     Concrete.three_params (VInt 7) 1 0)
                  [VInt 0x1000; VInt 4] Concrete.fresh_ql)) = Some TypeError.
Proof.
  repeat split.
Qed.

(** * Further properties *)

(** ** Memory map registry: coverage, the second pass, lookup *)

Import Registry.

Lemma covered_app a (l1 l2 : list map_entry) :
  covered a (l1 ++ l2) <-> covered a l1 \/ covered a l2.
Proof. unfold covered. apply Exists_app. Qed.

Lemma covered_cons a x (l : list map_entry) :
  covered a (x :: l) <-> in_range a x \/ covered a l.
Proof. unfold covered. apply Exists_cons. Qed.

Lemma covered_nil a : covered a [] <-> False.
Proof. unfold covered. apply Exists_nil. Qed.

(** The flag of the loop never goes back to 0. *)
Lemma split_step_flag_kept mem_s mem_e mem_p mem_info x :
  snd (split_step mem_s mem_e mem_p mem_info true x) = true.
Proof.
  destruct x as [[[s e] p] info]. unfold split_step.
  destruct (e <=? mem_s); [reflexivity|]. destruct (s >=? mem_e); reflexivity.
Qed.

Lemma split_loop_flag_kept mem_s mem_e mem_p mem_info (reg : list map_entry) :
  snd (split_loop mem_s mem_e mem_p mem_info true reg) = true.
Proof.
  induction reg as [|x rest IH]; [reflexivity|]. cbn [split_loop].
  pose proof (split_step_flag_kept mem_s mem_e mem_p mem_info x) as P.
  destruct (split_step mem_s mem_e mem_p mem_info true x) as [out f].
  simpl in P. subst f.
  destruct (split_loop mem_s mem_e mem_p mem_info true rest) as [outs f'].
  exact IH.
Qed.

(** What one iteration appends covers the entry at hand outside the new
    range, and the new range when this iteration inserts it. *)
Lemma split_step_covered mem_s mem_e mem_p mem_info flag x a :
  covered a (fst (split_step mem_s mem_e mem_p mem_info flag x))
  <-> (in_range a x /\ ~ mem_s <= a < mem_e)
      \/ (flag = false
          /\ snd (split_step mem_s mem_e mem_p mem_info flag x) = true
          /\ mem_s <= a < mem_e).
Proof.
  destruct x as [[[s e] p] info]. unfold split_step.
  destruct (Z.leb_spec e mem_s).
  - cbn [fst snd]. rewrite covered_cons, covered_nil. unfold in_range. simpl.
    destruct flag; intuition (try discriminate; try lia).
  - destruct (Z.geb_spec s mem_e).
    + cbn [fst snd]. destruct flag; cbn [app];
        rewrite ?covered_cons, covered_nil; unfold in_range; simpl;
        intuition (try discriminate; try lia).
    + rewrite Z.gtb_ltb. cbn [fst snd].
      destruct (Z.ltb_spec s mem_s); destruct (Z.ltb_spec mem_e e);
        destruct flag; cbn [app];
        rewrite ?covered_cons, covered_nil; unfold in_range; simpl;
        intuition (try discriminate; try lia).
Qed.

Lemma split_loop_covered mem_s mem_e mem_p mem_info (reg : list map_entry) :
  forall flag a,
    covered a (fst (split_loop mem_s mem_e mem_p mem_info flag reg))
    <-> (covered a reg /\ ~ mem_s <= a < mem_e)
        \/ (flag = false
            /\ snd (split_loop mem_s mem_e mem_p mem_info flag reg) = true
            /\ mem_s <= a < mem_e).
Proof.
  induction reg as [|x rest IH]; intros flag a.
  - cbn [split_loop fst snd]. rewrite covered_nil.
    destruct flag; intuition discriminate.
  - cbn [split_loop].
    pose proof (split_step_covered mem_s mem_e mem_p mem_info flag x a) as Hs.
    assert (K1 : flag = true ->
                 snd (split_step mem_s mem_e mem_p mem_info flag x) = true).
    { intros ->. apply split_step_flag_kept. }
    destruct (split_step mem_s mem_e mem_p mem_info flag x) as [out f1].
    specialize (IH f1 a).
    assert (K2 : f1 = true ->
                 snd (split_loop mem_s mem_e mem_p mem_info f1 rest) = true).
    { intros ->. apply split_loop_flag_kept. }
    destruct (split_loop mem_s mem_e mem_p mem_info f1 rest) as [outs f2].
    cbn [fst snd] in *. rewrite covered_app, covered_cons, Hs, IH.
    assert (D : mem_s <= a < mem_e \/ ~ mem_s <= a < mem_e) by lia.
    destruct flag, f1, f2;
      intuition (try discriminate; try congruence).
Qed.

Lemma build_tmp_covered reg mem_s mem_e mem_p mem_info a :
  covered a (build_tmp reg mem_s mem_e mem_p mem_info)
  <-> covered a reg \/ mem_s <= a < mem_e.
Proof.
  unfold build_tmp. destruct reg as [|x rest].
  - rewrite covered_cons, !covered_nil. unfold in_range. simpl. tauto.
  - pose proof (split_loop_covered mem_s mem_e mem_p mem_info (x :: rest) false a) as P.
    destruct (split_loop mem_s mem_e mem_p mem_info false (x :: rest)) as [tmp flag].
    cbn [fst snd] in P.
    assert (D : mem_s <= a < mem_e \/ ~ mem_s <= a < mem_e) by lia.
    destruct flag.
    + rewrite P. intuition.
    + rewrite covered_app, P, !covered_cons, covered_nil. unfold in_range. simpl.
      intuition discriminate.
Qed.

Lemma coalesce_covered (tmp : list map_entry) :
  forall last lo a, ordered_from lo (last :: tmp) ->
    (covered a (coalesce last tmp) <-> covered a (last :: tmp)).
Proof.
  induction tmp as [|[[[s e] p] info] rest IH];
    intros [[[ls le] lp] linfo] lo a Hord; [reflexivity|].
  simpl in Hord. destruct Hord as (H1 & H2 & H3 & H4 & H5).
  cbn [coalesce].
  destruct ((s =? le) && (info =? lp)%string) eqn:C.
  - apply andb_prop in C. destruct C as [C _]. apply Z.eqb_eq in C. subst s.
    rewrite (IH (ls, e, lp, linfo) lo a).
    + rewrite !covered_cons. unfold in_range. simpl. intuition lia.
    + simpl. repeat split; try lia. assumption.
  - rewrite covered_cons, (IH (s, e, p, info) le a).
    + rewrite !covered_cons. tauto.
    + simpl. repeat split; try lia. assumption.
Qed.

(** X1: on a well-formed registry, a call with start < end changes the
    coverage by exactly the new range: an address is covered afterwards if
    and only if it was covered before or lies in [start, end). *)
Theorem insert_map_info_coverage :
  forall (reg : list map_entry) (mem_s mem_e : Z) (mem_p mem_info : string) (a : Z),
    well_formed reg -> mem_s < mem_e ->
    (covered a (insert_map_info reg mem_s mem_e mem_p mem_info)
     <-> covered a reg \/ mem_s <= a < mem_e).
Proof.
  intros reg mem_s mem_e mem_p mem_info a [lo Hord] Hne.
  rewrite <- build_tmp_covered with (mem_p := mem_p) (mem_info := mem_info).
  unfold insert_map_info.
  pose proof (build_tmp_ordered reg mem_s mem_e mem_p mem_info lo Hne Hord) as P.
  destruct (build_tmp reg mem_s mem_e mem_p mem_info) as [|first rest];
    [reflexivity|].
  apply coalesce_covered with (Z.min lo mem_s). exact P.
Qed.

Lemma insert_map_info_coverage_witness :
  well_formed [(0x1000, 0x5000, "r-x", "a")]
  /\ 0x2000 < 0x6000
  /\ (covered 0x5800
        (insert_map_info [(0x1000, 0x5000, "r-x", "a")] 0x2000 0x6000 "rw-" "b")
      <-> covered 0x5800 [(0x1000, 0x5000, "r-x", "a")] \/ 0x2000 <= 0x5800 < 0x6000).
Proof.
  assert (Hwf : well_formed [(0x1000, 0x5000, "r-x", "a")]).
  { exists 0. simpl. lia. }
  assert (Hne : 0x2000 < 0x6000) by lia.
  split; [exact Hwf|]. split; [exact Hne|].
  exact (insert_map_info_coverage [(0x1000, 0x5000, "r-x", "a")]
           0x2000 0x6000 "rw-" "b" 0x5800 Hwf Hne).
Defined.

Lemma coalesce_nonempty (tmp : list map_entry) :
  forall last, coalesce last tmp <> [].
Proof.
  induction tmp as [|[[[s e] p] info] rest IH]; intros [[[ls le] lp] linfo];
    [discriminate|].
  cbn [coalesce]. destruct ((s =? le) && (info =? lp)%string);
    [apply IH | discriminate].
Qed.

(** X2: whatever the registry and the range (sorted or not, start below
    end or not), the first pass leaves a non-empty [tmp_map_info], so
    [tmp_map_info[0]] never raises IndexError, and the registry after the
    call is not empty. *)
Theorem insert_map_info_never_empty :
  forall (reg : list map_entry) (mem_s mem_e : Z) (mem_p mem_info : string),
    build_tmp reg mem_s mem_e mem_p mem_info <> []
    /\ insert_map_info reg mem_s mem_e mem_p mem_info <> [].
Proof.
  intros reg mem_s mem_e mem_p mem_info.
  pose proof (build_tmp_nonempty reg mem_s mem_e mem_p mem_info) as P.
  split; [exact P|]. unfold insert_map_info.
  destruct (build_tmp reg mem_s mem_e mem_p mem_info) as [|first rest];
    [contradiction|].
  apply coalesce_nonempty.
Qed.

(** X3: a call with start < end keeps any well-formed registry
    well-formed: afterwards every entry still has start < end and starts
    at or after the end of the entry before it. *)
Theorem insert_map_info_keeps_entries_proper :
  forall (reg : list map_entry) (mem_s mem_e : Z) (mem_p mem_info : string),
    well_formed reg -> mem_s < mem_e ->
    well_formed (insert_map_info reg mem_s mem_e mem_p mem_info)
    /\ Forall (fun x => ent_start x < ent_end x)
         (insert_map_info reg mem_s mem_e mem_p mem_info).
Proof.
  intros reg mem_s mem_e mem_p mem_info [lo Hord] Hne.
  pose proof (insert_map_info_ordered reg mem_s mem_e mem_p mem_info lo Hne Hord) as P.
  split; [now exists (Z.min lo mem_s)|].
  apply Forall_forall. intros x Hx.
  destruct (In_nth_error _ _ Hx) as [i Hi].
  now destruct (ordered_from_nth _ _ _ _ P Hi).
Qed.

Lemma insert_map_info_keeps_entries_proper_witness :
  well_formed [(0x1000, 0x5000, "r-x", "a")]
  /\ 0x2000 < 0x3000
  /\ Forall (fun x => ent_start x < ent_end x)
       (insert_map_info [(0x1000, 0x5000, "r-x", "a")] 0x2000 0x3000 "rw-" "b").
Proof.
  assert (Hwf : well_formed [(0x1000, 0x5000, "r-x", "a")]).
  { exists 0. simpl. lia. }
  assert (Hne : 0x2000 < 0x3000) by lia.
  split; [exact Hwf|]. split; [exact Hne|].
  exact (proj2 (insert_map_info_keeps_entries_proper
                  [(0x1000, 0x5000, "r-x", "a")] 0x2000 0x3000 "rw-" "b" Hwf Hne)).
Defined.

(** Every entry the first pass produces carries the label of the call or
    of an old entry, and the permissions of the call or of an old entry;
    an entry with another label than an old one is the new entry itself. *)
Lemma split_step_entries mem_s mem_e mem_p mem_info flag x y :
  In y (fst (split_step mem_s mem_e mem_p mem_info flag x)) ->
  (y = (mem_s, mem_e, mem_p, mem_info) \/ ent_label y = ent_label x)
  /\ (ent_perms y = mem_p \/ ent_perms y = ent_perms x).
Proof.
  destruct x as [[[s e] p] info]. unfold split_step.
  destruct (e <=? mem_s); [|destruct (s >=? mem_e)];
    [| |destruct (s <? mem_s); destruct (e >? mem_e)];
    destruct flag; cbn [fst app In];
    intuition (subst; simpl; auto).
Qed.

Lemma split_loop_entries mem_s mem_e mem_p mem_info (reg : list map_entry) :
  forall flag y,
    In y (fst (split_loop mem_s mem_e mem_p mem_info flag reg)) ->
    (y = (mem_s, mem_e, mem_p, mem_info) \/ In (ent_label y) (map ent_label reg))
    /\ In (ent_perms y) (mem_p :: map ent_perms reg).
Proof.
  induction reg as [|x rest IH]; intros flag y Hy; [contradiction|].
  cbn [split_loop] in Hy.
  pose proof (split_step_entries mem_s mem_e mem_p mem_info flag x y) as Hs.
  destruct (split_step mem_s mem_e mem_p mem_info flag x) as [out f1].
  specialize (IH f1 y).
  destruct (split_loop mem_s mem_e mem_p mem_info f1 rest) as [outs f2].
  cbn [fst] in *. apply in_app_or in Hy. cbn [map In].
  destruct Hy as [Hy | Hy].
  - destruct (Hs Hy) as [[-> | Hl] [Hp | Hp]]; simpl; auto; rewrite ?Hl, ?Hp; auto.
  - destruct (IH Hy) as [[-> | Hl] Hp]; simpl in *; intuition.
Qed.

Lemma build_tmp_entries reg mem_s mem_e mem_p mem_info y :
  In y (build_tmp reg mem_s mem_e mem_p mem_info) ->
  (y = (mem_s, mem_e, mem_p, mem_info) \/ In (ent_label y) (map ent_label reg))
  /\ In (ent_perms y) (mem_p :: map ent_perms reg).
Proof.
  unfold build_tmp. destruct reg as [|x rest].
  - intros [<- | []]. simpl. auto.
  - pose proof (split_loop_entries mem_s mem_e mem_p mem_info (x :: rest) false y) as P.
    destruct (split_loop mem_s mem_e mem_p mem_info false (x :: rest)) as [tmp flag].
    cbn [fst] in P. destruct flag; [exact P|].
    intros Hy. apply in_app_or in Hy. destruct Hy as [Hy | [<- | []]]; [auto|].
    simpl. auto.
Qed.

(** The new entry is in what the first pass produces. *)
Lemma split_loop_inserts_new mem_s mem_e mem_p mem_info (reg : list map_entry) :
  snd (split_loop mem_s mem_e mem_p mem_info false reg) = true ->
  In (mem_s, mem_e, mem_p, mem_info)
     (fst (split_loop mem_s mem_e mem_p mem_info false reg)).
Proof.
  induction reg as [|[[[s e] p] info] rest IH]; [discriminate|].
  cbn [split_loop split_step].
  destruct (e <=? mem_s).
  - destruct (split_loop mem_s mem_e mem_p mem_info false rest) as [outs f2].
    cbn [fst snd] in *. intros Hf. right. auto.
  - destruct (s >=? mem_e); [|destruct (s <? mem_s)];
      destruct (split_loop mem_s mem_e mem_p mem_info true rest) as [outs f2];
      intros _; cbn [fst app In]; auto.
Qed.

Lemma build_tmp_has_new reg mem_s mem_e mem_p mem_info :
  In (mem_s, mem_e, mem_p, mem_info) (build_tmp reg mem_s mem_e mem_p mem_info).
Proof.
  unfold build_tmp. destruct reg as [|x rest]; [now left|].
  pose proof (split_loop_inserts_new mem_s mem_e mem_p mem_info (x :: rest)) as P.
  destruct (split_loop mem_s mem_e mem_p mem_info false (x :: rest)) as [tmp flag].
  cbn [fst snd] in P. destruct flag; [auto|].
  apply in_or_app. right. now left.
Qed.

(** The second pass copies a list in which no label equals a permission
    string. *)
Lemma coalesce_no_merge (tmp : list map_entry) :
  forall last,
    (forall x y, In x tmp -> In y (last :: tmp) -> ent_label x <> ent_perms y) ->
    coalesce last tmp = last :: tmp.
Proof.
  induction tmp as [|[[[s e] p] info] rest IH]; intros [[[ls le] lp] linfo] Hap;
    [reflexivity|].
  cbn [coalesce].
  destruct (String.eqb_spec info lp) as [Heq | Hne].
  - exfalso. apply (Hap (s, e, p, info) (ls, le, lp, linfo)); simpl; auto.
  - rewrite andb_false_r. f_equal. apply IH.
    intros x y Hx Hy. apply Hap; simpl in *; tauto.
Qed.

(** X4: when no label at hand equals a permission string at hand (labels
    are paths, permissions are strings such as [r-x]), the second pass
    merges nothing: the registry after the call is what the first pass
    produced, so touching entries with equal labels stay apart. *)
Theorem insert_map_info_never_merges_real_labels :
  forall (reg : list map_entry) (mem_s mem_e : Z) (mem_p mem_info : string),
    labels_apart reg mem_p mem_info ->
    insert_map_info reg mem_s mem_e mem_p mem_info
    = build_tmp reg mem_s mem_e mem_p mem_info.
Proof.
  intros reg mem_s mem_e mem_p mem_info Hap. unfold insert_map_info.
  pose proof (build_tmp_entries reg mem_s mem_e mem_p mem_info) as E.
  destruct (build_tmp reg mem_s mem_e mem_p mem_info) as [|first rest];
    [reflexivity|].
  apply coalesce_no_merge. intros x y Hx Hy.
  destruct (E x (or_intror Hx)) as [Hlx _]. destruct (E y Hy) as [_ Hpy].
  apply Hap; [|exact Hpy].
  destruct Hlx as [-> | Hl]; simpl; auto.
Qed.

Lemma insert_map_info_never_merges_real_labels_witness :
  labels_apart [(0x1000, 0x2000, "r-x", "/lib/libc.so")] "r-x" "/lib/libc.so"
  /\ insert_map_info [(0x1000, 0x2000, "r-x", "/lib/libc.so")]
       0x2000 0x3000 "r-x" "/lib/libc.so"
     = [(0x1000, 0x2000, "r-x", "/lib/libc.so");
        (0x2000, 0x3000, "r-x", "/lib/libc.so")].
Proof.
  assert (Hap : labels_apart [(0x1000, 0x2000, "r-x", "/lib/libc.so")]
                  "r-x" "/lib/libc.so").
  { intros l q Hl Hq. simpl in Hl, Hq.
    destruct Hl as [<- | [<- | []]]; destruct Hq as [<- | [<- | []]]; discriminate. }
  split; [exact Hap|].
  exact (insert_map_info_never_merges_real_labels
           [(0x1000, 0x2000, "r-x", "/lib/libc.so")] 0x2000 0x3000
           "r-x" "/lib/libc.so" Hap).
Defined.

Lemma split_loop_below mem_s mem_e mem_p mem_info (below : list map_entry) :
  Forall (fun x => ent_end x <= mem_s) below ->
  forall flag rest,
    split_loop mem_s mem_e mem_p mem_info flag (below ++ rest)
    = (below ++ fst (split_loop mem_s mem_e mem_p mem_info flag rest),
       snd (split_loop mem_s mem_e mem_p mem_info flag rest)).
Proof.
  induction 1 as [|[[[s e] p] info] below Hx Hall IH]; intros flag rest.
  - simpl. now destruct (split_loop mem_s mem_e mem_p mem_info flag rest).
  - simpl in Hx. cbn [app split_loop split_step].
    destruct (Z.leb_spec e mem_s); [|lia]. rewrite IH. reflexivity.
Qed.

Lemma split_loop_above mem_s mem_e mem_p mem_info (above : list map_entry) :
  Forall (fun x => mem_e <= ent_start x /\ mem_s < ent_end x) above ->
  split_loop mem_s mem_e mem_p mem_info true above = (above, true).
Proof.
  induction 1 as [|[[[s e] p] info] above Hx Hall IH]; [reflexivity|].
  simpl in Hx. cbn [split_loop split_step].
  destruct (Z.leb_spec e mem_s); [lia|]. destruct (Z.geb_spec s mem_e); [|lia].
  rewrite IH. reflexivity.
Qed.

(** X5: a range that overlaps no entry goes in at its sorted position and
    changes no entry: with every entry of [below] ending at or before
    [start], every entry of [above] starting at or after [end] and ending
    after [start], and labels apart from permissions, the registry
    [below ++ above] becomes [below ++ [new] ++ above].  The condition on
    the end of the entries of [above] is needed: an empty entry that sits
    at [start = end] counts as lying below for the loop, see
    [insert_map_info_at_empty_entry]. *)
Theorem insert_map_info_disjoint :
  forall (below above : list map_entry) (mem_s mem_e : Z)
         (mem_p mem_info : string),
    Forall (fun x => ent_end x <= mem_s) below ->
    Forall (fun x => mem_e <= ent_start x /\ mem_s < ent_end x) above ->
    labels_apart (below ++ above) mem_p mem_info ->
    insert_map_info (below ++ above) mem_s mem_e mem_p mem_info
    = below ++ [(mem_s, mem_e, mem_p, mem_info)] ++ above.
Proof.
  intros below above mem_s mem_e mem_p mem_info Hb Ha Hap.
  rewrite (insert_map_info_never_merges_real_labels _ _ _ _ _ Hap).
  unfold build_tmp.
  destruct (below ++ above) as [|x l] eqn:E.
  - destruct below; [|discriminate]. destruct above; [|discriminate]. reflexivity.
  - rewrite <- E. rewrite (split_loop_below _ _ _ _ _ Hb). cbn [fst snd].
    destruct Ha as [|[[[s e] p] info] above Hx Hall].
    + cbn [split_loop fst snd]. rewrite app_nil_r. reflexivity.
    + simpl in Hx. cbn [split_loop split_step].
      destruct (Z.leb_spec e mem_s); [lia|]. destruct (Z.geb_spec s mem_e); [|lia].
      rewrite (split_loop_above _ _ _ _ _ Hall). reflexivity.
Qed.

Lemma insert_map_info_disjoint_witness :
  Forall (fun x => ent_end x <= 0x3000) [(0x1000, 0x2000, "r-x", "/bin/a")]
  /\ Forall (fun x => 0x4000 <= ent_start x /\ 0x3000 < ent_end x)
       [(0x5000, 0x6000, "rw-", "[stack]")]
  /\ labels_apart ([(0x1000, 0x2000, "r-x", "/bin/a")]
                     ++ [(0x5000, 0x6000, "rw-", "[stack]")]) "r--" "/lib/b"
  /\ insert_map_info ([(0x1000, 0x2000, "r-x", "/bin/a")]
                        ++ [(0x5000, 0x6000, "rw-", "[stack]")])
       0x3000 0x4000 "r--" "/lib/b"
     = [(0x1000, 0x2000, "r-x", "/bin/a")] ++ [(0x3000, 0x4000, "r--", "/lib/b")]
         ++ [(0x5000, 0x6000, "rw-", "[stack]")].
Proof.
  assert (Hb : Forall (fun x => ent_end x <= 0x3000)
                 [(0x1000, 0x2000, "r-x", "/bin/a")]).
  { repeat constructor. simpl. lia. }
  assert (Ha : Forall (fun x => 0x4000 <= ent_start x /\ 0x3000 < ent_end x)
                 [(0x5000, 0x6000, "rw-", "[stack]")]).
  { repeat constructor; simpl; lia. }
  assert (Hap : labels_apart ([(0x1000, 0x2000, "r-x", "/bin/a")]
                     ++ [(0x5000, 0x6000, "rw-", "[stack]")]) "r--" "/lib/b").
  { intros l q Hl Hq. simpl in Hl, Hq.
    destruct Hl as [<- | [<- | [<- | []]]];
      destruct Hq as [<- | [<- | [<- | []]]]; discriminate. }
  split; [exact Hb|]. split; [exact Ha|]. split; [exact Hap|].
  exact (insert_map_info_disjoint _ _ 0x3000 0x4000 "r--" "/lib/b" Hb Ha Hap).
Defined.

(** Without the condition on the end of the entries above: the empty
    entry at 5 starts at the end of the empty range inserted at 5, but
    the loop takes it as lying below ([e <= mem_s]) and keeps it first. *)
Lemma insert_map_info_at_empty_entry :
  insert_map_info [(5, 5, "r--", "old")] 5 5 "rw-" "new"
  = [(5, 5, "r--", "old"); (5, 5, "rw-", "new")].
Proof.
  reflexivity.
Qed.

(** ** Base lookup after insertion, and applying patches *)

Section LookupAndPatchFacts.

Context {U : Type} {engine : Unicorn U} {host : Host}.

Lemma lib_base_in_only_match (l : list map_entry) (new : map_entry)
    (filename : string) :
  (forall y, In y l -> y = new \/ path_split_tail (ent_label y) <> filename) ->
  In new l ->
  path_split_tail (ent_label new) = filename ->
  lib_base_in l filename = ent_start new.
Proof.
  intros Hall Hin Hnew. induction l as [|[[[s e] p] info] l IH]; [contradiction|].
  cbn [lib_base_in].
  destruct (String.eqb_spec (path_split_tail info) filename) as [Hm | Hm].
  - destruct (Hall (s, e, p, info) (or_introl eq_refl)) as [<- | Hn];
      [reflexivity | contradiction].
  - apply IH.
    + intros y Hy. apply Hall. now right.
    + destruct Hin as [<- | Hin]; [contradiction|assumption].
Qed.

(** X6: after [insert_map_info(start, end, perms, label)], the base
    lookup for the base name of [label] gives [start], provided no older
    entry has that base name and labels are apart from permissions. *)
Theorem get_lib_base_after_insert :
  forall (ql : @Qiling U) (mem_s mem_e : Z) (mem_p mem_info filename : string),
    labels_apart (map_info ql) mem_p mem_info ->
    Forall (fun x => path_split_tail (ent_label x) <> filename) (map_info ql) ->
    path_split_tail mem_info = filename ->
    get_lib_base filename (snd (ql_insert_map_info mem_s mem_e mem_p mem_info ql))
    = mem_s.
Proof.
  intros ql mem_s mem_e mem_p mem_info filename Hap Hold Hnew.
  unfold get_lib_base, ql_insert_map_info. cbn [snd map_info set_map_info].
  rewrite (insert_map_info_never_merges_real_labels _ _ _ _ _ Hap).
  apply (lib_base_in_only_match _ (mem_s, mem_e, mem_p, mem_info)).
  - intros y Hy. destruct (build_tmp_entries _ _ _ _ _ _ Hy) as [[-> | Hl] _];
      [now left|]. right.
    apply in_map_iff in Hl. destruct Hl as (x & Hx & Hin). rewrite <- Hx.
    rewrite Forall_forall in Hold. now apply Hold.
  - apply build_tmp_has_new.
  - exact Hnew.
Qed.

Lemma mem_write_engine_only addr data : engine_only (mem_write addr data).
Proof.
  intros ql r ql' Hm. unfold mem_write in Hm.
  destruct (uc_mem_write (uc ql) addr data); injection Hm as _ <-;
    destruct ql; reflexivity.
Qed.

Lemma for_each_engine_only {A} (body : A -> @M U unit) (l : list A) :
  (forall x, engine_only (body x)) -> engine_only (for_each l body).
Proof.
  intros Hb. induction l as [|x l IH]; intros ql r ql' Hm.
  - injection Hm as _ <-. destruct ql; reflexivity.
  - cbn [for_each] in Hm. unfold bind in Hm.
    destruct (body x ql) as [[[]|e] ql1] eqn:E.
    + apply Hb in E. apply IH in Hm. rewrite Hm, E. destruct ql; reflexivity.
    + injection Hm as _ <-. now apply Hb in E.
Qed.

Lemma write_bin_patch_engine_only p : engine_only (write_bin_patch p).
Proof.
  intros ql r ql' Hm. destruct p as [addr code]. unfold write_bin_patch in Hm.
  now apply mem_write_engine_only in Hm.
Qed.

Lemma write_lib_patch_engine_only p : engine_only (write_lib_patch p).
Proof.
  intros ql r ql' Hm. destruct p as [[addr code] f]. unfold write_lib_patch in Hm.
  now apply mem_write_engine_only in Hm.
Qed.

(** X7: applying the patches changes nothing of the emulator but the
    engine, whether the writes succeed or one of them raises: the pending
    lists are not consumed (a later [__enable_bin_patch], as [run] makes
    after [shellcode], writes the same patches again), and the registry,
    the load base and the exception slot stay. *)
Theorem enable_patches_change_engine_only :
  forall (ql ql' : @Qiling U) (r : result unit),
    enable_bin_patch ql = (r, ql') \/ enable_lib_patch ql = (r, ql') ->
    patch_bin ql' = patch_bin ql /\ patch_lib ql' = patch_lib ql
    /\ map_info ql' = map_info ql /\ loadbase ql' = loadbase ql
    /\ internal_exception ql' = internal_exception ql
    /\ thread_management ql' = thread_management ql.
Proof.
  intros ql ql' r [Hm | Hm].
  - apply (for_each_engine_only _ _ write_bin_patch_engine_only) in Hm.
    rewrite Hm. repeat split.
  - apply (for_each_engine_only _ _ write_lib_patch_engine_only) in Hm.
    rewrite Hm. repeat split.
Qed.

(** X8: a write that the engine refuses ends [__enable_bin_patch] there:
    the exception of the engine is raised, the patches before it are
    written and the patches after it are not attempted. *)
Theorem enable_bin_patch_stops_at_failing_write :
  forall (ql ql1 : @Qiling U) (done rest : list (Z * list byte))
         (addr : Z) (code : list byte) (e : exn),
    patch_bin ql = done ++ (addr, code) :: rest ->
    for_each done write_bin_patch ql = (Ok tt, ql1) ->
    uc_mem_write (uc ql1) (loadbase ql + addr) code = Raise e ->
    enable_bin_patch ql = (Raise e, ql1).
Proof.
  intros ql ql1 done rest addr code e Hp Hd Hw.
  unfold enable_bin_patch. rewrite Hp, for_each_app. unfold bind at 1.
  rewrite Hd. cbn [for_each]. unfold bind, write_bin_patch, mem_write.
  rewrite (write_bin_patches_keep_loadbase _ _ _ _ Hd), Hw. reflexivity.
Qed.

(** X9: a library patch submitted before its library is mapped lands at
    the library's base once the library is in the registry: with
    (addr, code, name) last in the pending list, and the range of a label
    with base name [name] inserted at [start], [enable_lib_patch] writes
    the earlier patches and then [code] at [start + addr]. *)
Theorem lib_patch_lands_after_mapping :
  forall (ql : @Qiling U) (pending : list (Z * list byte * string))
         (addr : Z) (code : list byte) (filename : string)
         (mem_s mem_e : Z) (mem_p mem_info : string),
    patch_lib ql = pending ++ [(addr, code, filename)] ->
    labels_apart (map_info ql) mem_p mem_info ->
    Forall (fun x => path_split_tail (ent_label x) <> filename) (map_info ql) ->
    path_split_tail mem_info = filename ->
    enable_lib_patch (snd (ql_insert_map_info mem_s mem_e mem_p mem_info ql))
    = bind (for_each pending write_lib_patch)
           (fun _ => mem_write (mem_s + addr) code)
           (snd (ql_insert_map_info mem_s mem_e mem_p mem_info ql)).
Proof.
  intros ql pending addr code filename mem_s mem_e mem_p mem_info Hp Hap Hold Hnew.
  pose proof (get_lib_base_after_insert ql mem_s mem_e mem_p mem_info filename
                Hap Hold Hnew) as Hbase.
  set (ql1 := snd (ql_insert_map_info mem_s mem_e mem_p mem_info ql)) in *.
  rewrite (enable_lib_patch_snoc ql1 pending addr code filename) by exact Hp.
  unfold bind.
  destruct (for_each pending write_lib_patch ql1) as [[[]|e] ql2] eqn:E;
    [|reflexivity].
  apply (for_each_engine_only _ _ write_lib_patch_engine_only) in E.
  unfold get_lib_base in *. rewrite E. cbn [map_info set_uc]. now rewrite Hbase.
Qed.

End LookupAndPatchFacts.

(** ** Packing: round trips and errors *)

Lemma pow_bits_halves (c : Struct.code) :
  2 ^ (8 * Z.of_nat (Struct.size c))
  = 2 * 2 ^ (8 * Z.of_nat (Struct.size c) - 1)
  /\ 0 < 2 ^ (8 * Z.of_nat (Struct.size c) - 1).
Proof.
  assert (Hn : 1 <= 8 * Z.of_nat (Struct.size c)) by (destruct c; simpl; lia).
  split.
  - rewrite <- Z.pow_succ_r by lia. f_equal. lia.
  - apply Z.pow_pos_nonneg; lia.
Qed.

Lemma mod_of_negative (m x : Z) : - m <= x < 0 -> x mod m = x + m.
Proof.
  intros Hx. symmetry. apply Z.mod_unique with (q := -1); lia.
Qed.

(** The signed reading [struct.unpack] makes of the unsigned value of a
    packed number gives the number back. *)
Lemma signed_reading (c : Struct.code) (x : Z) :
  Struct.min_value c <= x <= Struct.max_value c ->
  (let u := x mod 2 ^ (8 * Z.of_nat (Struct.size c)) in
   if Struct.signed c && (u >? Struct.max_value c)
   then u - 2 ^ (8 * Z.of_nat (Struct.size c)) else u) = x.
Proof.
  unfold Struct.min_value, Struct.max_value. intros Hx.
  destruct (pow_bits_halves c) as [Hm Hh]. cbv zeta.
  destruct (Struct.signed c); cbn [andb].
  - rewrite Z.gtb_ltb. destruct (Z.neg_nonneg_cases x) as [Hneg | Hpos].
    + rewrite mod_of_negative by lia.
      destruct (Z.ltb_spec (2 ^ (8 * Z.of_nat (Struct.size c) - 1) - 1)
                  (x + 2 ^ (8 * Z.of_nat (Struct.size c)))); lia.
    + rewrite Z.mod_small by lia.
      destruct (Z.ltb_spec (2 ^ (8 * Z.of_nat (Struct.size c) - 1) - 1) x); lia.
  - apply Z.mod_small. lia.
Qed.

Lemma struct_pack_then_unpack (host : Host) (p : Struct.prefix)
    (c : Struct.code) (x : Z) :
  Struct.min_value c <= x <= Struct.max_value c ->
  exists bs,
    Struct.pack p c x = Ok bs
    /\ List.length bs = Struct.size c
    /\ Struct.unpack p c bs = Ok x.
Proof.
  intros Hx. unfold Struct.pack, Struct.unpack.
  destruct (Z.leb_spec (Struct.min_value c) x); [|lia].
  destruct (Z.leb_spec x (Struct.max_value c)); [|lia]. cbn [andb].
  pose proof (signed_reading c x Hx) as Hs. cbv zeta in Hs.
  destruct (Struct.order_of p); eexists; (split; [reflexivity|]).
  - rewrite length_le_split, Nat.eqb_refl, le_combine_split.
    split; [reflexivity|]. f_equal.
    rewrite (Z.mul_comm (Z.of_nat (Struct.size c)) 8). exact Hs.
  - rewrite length_rev, length_le_split, Nat.eqb_refl.
    unfold Struct.be_combine. rewrite rev_involutive, le_combine_split.
    split; [reflexivity|]. f_equal.
    rewrite (Z.mul_comm (Z.of_nat (Struct.size c)) 8). exact Hs.
Qed.

Lemma struct_unpack_then_pack (host : Host) (p : Struct.prefix)
    (c : Struct.code) (bs : list byte) :
  List.length bs = Struct.size c ->
  exists x,
    Struct.unpack p c bs = Ok x
    /\ Struct.min_value c <= x <= Struct.max_value c
    /\ Struct.pack p c x = Ok bs.
Proof.
  intros Hl. unfold Struct.unpack. rewrite Hl, Nat.eqb_refl.
  eexists. split; [reflexivity|].
  set (bs' := match Struct.order_of p with
              | LittleEndian => bs | BigEndian => rev bs end).
  assert (Hl' : List.length bs' = Struct.size c).
  { unfold bs'. destruct (Struct.order_of p); [exact Hl|now rewrite length_rev]. }
  assert (Hu : match Struct.order_of p with
               | LittleEndian => le_combine bs
               | BigEndian => Struct.be_combine bs
               end = le_combine bs').
  { unfold bs', Struct.be_combine. now destruct (Struct.order_of p). }
  rewrite Hu. pose proof (le_combine_bound bs') as Hb. rewrite Hl' in Hb.
  destruct (pow_bits_halves c) as [Hm Hh].
  set (u := le_combine bs') in *.
  set (x := if Struct.signed c && (u >? Struct.max_value c)
            then u - 2 ^ (8 * Z.of_nat (Struct.size c)) else u).
  assert (Hx : Struct.min_value c <= x <= Struct.max_value c
               /\ x mod 2 ^ (8 * Z.of_nat (Struct.size c)) = u).
  { unfold x, Struct.min_value, Struct.max_value.
    destruct (Struct.signed c); cbn [andb].
    - rewrite Z.gtb_ltb.
      destruct (Z.ltb_spec (2 ^ (8 * Z.of_nat (Struct.size c) - 1) - 1) u).
      + split; [lia|]. rewrite mod_of_negative by lia. lia.
      + split; [lia|]. apply Z.mod_small. lia.
    - split; [lia|]. apply Z.mod_small. lia. }
  destruct Hx as [Hr Hmod]. split; [exact Hr|].
  unfold Struct.pack.
  destruct (Z.leb_spec (Struct.min_value c) x); [|lia].
  destruct (Z.leb_spec x (Struct.max_value c)); [|lia]. cbn [andb].
  rewrite le_split_mod, (Z.mul_comm (Z.of_nat (Struct.size c)) 8), Hmod.
  unfold u. rewrite (split_le_combine' bs' _ Hl'). unfold bs'.
  destruct (Struct.order_of p); [reflexivity|now rewrite rev_involutive].
Qed.

Lemma struct_pack_out_of_range (host : Host) (p : Struct.prefix)
    (c : Struct.code) (x : Z) :
  x < Struct.min_value c \/ Struct.max_value c < x ->
  Struct.pack p c x = Raise StructError.
Proof.
  intros Hx. unfold Struct.pack.
  destruct (Z.leb_spec (Struct.min_value c) x);
    destruct (Z.leb_spec x (Struct.max_value c)); try reflexivity. lia.
Qed.


(** An unsigned code packed, then read with the signed code of the same
    size: the two's complement reading. *)
Lemma struct_pack_unsigned_unpack_signed (host : Host) (p : Struct.prefix)
    (cu cs : Struct.code) (x : Z) :
  Struct.signed cu = false -> Struct.signed cs = true ->
  Struct.size cs = Struct.size cu ->
  0 <= x < 2 ^ (8 * Z.of_nat (Struct.size cu)) ->
  exists bs,
    Struct.pack p cu x = Ok bs
    /\ Struct.unpack p cs bs
       = Ok (if x <? 2 ^ (8 * Z.of_nat (Struct.size cu) - 1) then x
             else x - 2 ^ (8 * Z.of_nat (Struct.size cu))).
Proof.
  intros Hu Hs Hsz Hx.
  destruct (struct_pack_unsigned host p cu x Hu Hx) as (bs & Hp & Hl & Ho).
  exists bs. split; [exact Hp|].
  unfold Struct.unpack. rewrite Hsz, Hl, Nat.eqb_refl, Hs. cbn [andb].
  unfold Struct.max_value. rewrite Hs, Hsz, Z.gtb_ltb. f_equal.
  destruct (Struct.order_of p); rewrite Ho;
    destruct (Z.ltb_spec (2 ^ (8 * Z.of_nat (Struct.size cu) - 1) - 1) x);
    destruct (Z.ltb_spec x (2 ^ (8 * Z.of_nat (Struct.size cu) - 1)));
    try reflexivity; lia.
Qed.

(** The bounds of a format code against bounds written as powers of 2. *)
Ltac struct_range :=
  unfold Struct.min_value, Struct.max_value in *;
  cbn [Struct.signed Struct.size] in *;
  try change (8 * Z.of_nat 8 - 1) with 63 in *;
  try change (8 * Z.of_nat 4 - 1) with 31 in *;
  try change (8 * Z.of_nat 2 - 1) with 15 in *;
  try change (8 * Z.of_nat 8) with 64 in *;
  try change (8 * Z.of_nat 4) with 32 in *;
  try change (8 * Z.of_nat 2) with 16 in *;
  try change (Z.of_nat 8) with 8 in *;
  try change (Z.of_nat 4) with 4 in *;
  try change (Z.of_nat 2) with 2 in *;
  try change (64 - 1) with 63 in *;
  try change (32 - 1) with 31 in *;
  lia.

Section PackingFacts.

Context {U : Type} {host : Host}.

(** X10: [unpack(pack(x)) == x] for every [x] that fits the width, when
    [archbit] is 32 or 64, whatever [archendian] and the byte order of the
    host are; the packed bytes are [archbit / 8] many. *)
Theorem unpack_pack_round_trip :
  forall (ql : @Qiling U) (x : Z),
    archbit ql = 32 \/ archbit ql = 64 ->
    0 <= x < 2 ^ archbit ql ->
    exists bs,
      pack x ql = (Ok bs, ql)
      /\ Z.of_nat (List.length bs) * 8 = archbit ql
      /\ unpack bs ql = (Ok x, ql).
Proof.
  intros ql x Hbit Hx. unfold pack, unpack, pack64, unpack64, pack32, unpack32.
  destruct Hbit as [Hbit | Hbit]; rewrite Hbit in *; cbn [Z.eqb Pos.eqb].
  - destruct (archendian ql).
    + destruct (struct_pack_then_unpack host Struct.Native Struct.fmt_I x)
        as (bs & Hp & Hl & Hu); [struct_range|].
      exists bs. rewrite Hp, Hu, Hl. auto.
    + destruct (struct_pack_then_unpack host Struct.Big Struct.fmt_I x)
        as (bs & Hp & Hl & Hu); [struct_range|].
      exists bs. rewrite Hp, Hu, Hl. auto.
  - destruct (struct_pack_then_unpack host Struct.Native Struct.fmt_Q x)
      as (bs & Hp & Hl & Hu); [struct_range|].
    exists bs. rewrite Hp, Hu, Hl. auto.
Qed.

(** X11: [pack(unpack(bs)) == bs] for every byte string of [archbit / 8]
    bytes, when [archbit] is 32 or 64; the number read fits the width. *)
Theorem pack_unpack_round_trip :
  forall (ql : @Qiling U) (bs : list byte),
    archbit ql = 32 \/ archbit ql = 64 ->
    Z.of_nat (List.length bs) * 8 = archbit ql ->
    exists x,
      unpack bs ql = (Ok x, ql)
      /\ 0 <= x < 2 ^ archbit ql
      /\ pack x ql = (Ok bs, ql).
Proof.
  intros ql bs Hbit Hl. unfold pack, unpack, pack64, unpack64, pack32, unpack32.
  destruct Hbit as [Hbit | Hbit]; rewrite Hbit in *; cbn [Z.eqb Pos.eqb].
  - assert (Hl4 : List.length bs = Struct.size Struct.fmt_I) by struct_range.
    destruct (archendian ql).
    + destruct (struct_unpack_then_pack host Struct.Native Struct.fmt_I bs Hl4)
        as (x & Hu & Hr & Hp).
      exists x. rewrite Hu, Hp. repeat split; struct_range.
    + destruct (struct_unpack_then_pack host Struct.Big Struct.fmt_I bs Hl4)
        as (x & Hu & Hr & Hp).
      exists x. rewrite Hu, Hp. repeat split; struct_range.
  - assert (Hl8 : List.length bs = Struct.size Struct.fmt_Q) by struct_range.
    destruct (struct_unpack_then_pack host Struct.Native Struct.fmt_Q bs Hl8)
      as (x & Hu & Hr & Hp).
    exists x. rewrite Hu, Hp. repeat split; struct_range.
Qed.


(** X13: [unpacks(pack(x))] is the two's complement reading of [x]: [x]
    itself below 2^(archbit-1), and [x - 2^archbit] from there on. *)
Theorem unpacks_pack_signed_reading :
  forall (ql : @Qiling U) (x : Z),
    archbit ql = 32 \/ archbit ql = 64 ->
    0 <= x < 2 ^ archbit ql ->
    exists bs,
      pack x ql = (Ok bs, ql)
      /\ unpacks bs ql
         = (Ok (if x <? 2 ^ (archbit ql - 1) then x else x - 2 ^ archbit ql), ql).
Proof.
  intros ql x Hbit Hx.
  unfold pack, unpacks, pack64, unpack64s, pack32, unpack32s.
  destruct Hbit as [Hbit | Hbit]; rewrite Hbit in *; cbn [Z.eqb Pos.eqb].
  - destruct (archendian ql).
    + destruct (struct_pack_unsigned_unpack_signed host Struct.Native
                  Struct.fmt_I Struct.fmt_i_signed x eq_refl eq_refl eq_refl)
        as (bs & Hp & Hu); [struct_range|].
      exists bs. rewrite Hp, Hu. auto.
    + destruct (struct_pack_unsigned_unpack_signed host Struct.Big
                  Struct.fmt_I Struct.fmt_i_signed x eq_refl eq_refl eq_refl)
        as (bs & Hp & Hu); [struct_range|].
      exists bs. rewrite Hp, Hu. auto.
  - destruct (struct_pack_unsigned_unpack_signed host Struct.Native
                Struct.fmt_Q Struct.fmt_q_signed x eq_refl eq_refl eq_refl)
      as (bs & Hp & Hu); [struct_range|].
    exists bs. rewrite Hp, Hu. auto.
Qed.

(** X14: [unpack32s(pack32s(x)) == x] for every [x] from -2^31 up to
    2^31 - 1, whatever [archendian] and the host are, and [pack32s]
    raises struct.error outside that range; with a little [archendian]
    the native-order [unpack32s_ne] reads the same bytes to the same
    number. *)
Theorem pack32s_unpack32s_round_trip :
  forall (ql : @Qiling U) (x : Z),
    (- 2 ^ 31 <= x < 2 ^ 31 ->
       exists bs,
         pack32s x ql = (Ok bs, ql)
         /\ List.length bs = 4%nat
         /\ unpack32s bs ql = (Ok x, ql)
         /\ (archendian ql = QL_ENDIAN_EL -> unpack32s_ne bs ql = (Ok x, ql)))
    /\ (x < - 2 ^ 31 \/ 2 ^ 31 <= x -> pack32s x ql = (Raise StructError, ql)).
Proof.
  intros ql x. unfold pack32s, unpack32s, unpack32s_ne. split.
  - intros Hx. destruct (archendian ql).
    + destruct (struct_pack_then_unpack host Struct.Native Struct.fmt_i_signed x)
        as (bs & Hp & Hl & Hu); [struct_range|].
      exists bs. rewrite Hp, Hu. auto.
    + destruct (struct_pack_then_unpack host Struct.Big Struct.fmt_i_signed x)
        as (bs & Hp & Hl & Hu); [struct_range|].
      exists bs. rewrite Hp, Hu. repeat split; auto. discriminate.
  - intros Hx. destruct (archendian ql);
      rewrite struct_pack_out_of_range; auto; struct_range.
Qed.

(** X15: [unpack16(pack16(x)) == x] for every [x] from 0 to 65535, on two
    bytes, and [pack16] raises struct.error outside that range. *)
Theorem pack16_unpack16_round_trip :
  forall (ql : @Qiling U) (x : Z),
    (0 <= x < 65536 ->
       exists bs,
         pack16 x ql = (Ok bs, ql)
         /\ List.length bs = 2%nat
         /\ unpack16 bs ql = (Ok x, ql))
    /\ (x < 0 \/ 65536 <= x -> pack16 x ql = (Raise StructError, ql)).
Proof.
  intros ql x. unfold pack16, unpack16. split.
  - intros Hx. destruct (archendian ql).
    + destruct (struct_pack_then_unpack host Struct.Native Struct.fmt_H x)
        as (bs & Hp & Hl & Hu); [struct_range|].
      exists bs. rewrite Hp, Hu. auto.
    + destruct (struct_pack_then_unpack host Struct.Big Struct.fmt_H x)
        as (bs & Hp & Hl & Hu); [struct_range|].
      exists bs. rewrite Hp, Hu. auto.
  - intros Hx. destruct (archendian ql);
      rewrite struct_pack_out_of_range; auto; struct_range.
Qed.

End PackingFacts.

Lemma get_lib_base_after_insert_witness :
  labels_apart (map_info Concrete.fresh_ql) "r-x" "/lib/libc.so"
  /\ Forall (fun x => Concrete.posix_split_tail (ent_label x) <> "libc.so")
       (map_info Concrete.fresh_ql)
  /\ Concrete.posix_split_tail "/lib/libc.so" = "libc.so"
  /\ @get_lib_base _ Concrete.posix_little_host "libc.so"
       (snd (ql_insert_map_info 0x4000 0x5000 "r-x" "/lib/libc.so" Concrete.fresh_ql))
     = 0x4000.
Proof.
  assert (Hap : labels_apart (map_info Concrete.fresh_ql) "r-x" "/lib/libc.so").
  { intros l q Hl Hq. simpl in Hl, Hq.
    destruct Hl as [<- | []]; destruct Hq as [<- | []]; discriminate. }
  assert (Hold : Forall (fun x => Concrete.posix_split_tail (ent_label x) <> "libc.so")
                   (map_info Concrete.fresh_ql)) by constructor.
  assert (Hnew : Concrete.posix_split_tail "/lib/libc.so" = "libc.so") by reflexivity.
  split; [exact Hap|]. split; [exact Hold|]. split; [exact Hnew|].
  exact (@get_lib_base_after_insert _ Concrete.posix_little_host Concrete.fresh_ql
           0x4000 0x5000 "r-x" "/lib/libc.so" "libc.so" Hap Hold Hnew).
Defined.

Lemma enable_patches_change_engine_only_witness :
  (@enable_bin_patch _ Concrete.trace_unicorn Concrete.three_patches
   = (Raise (UcError 7), snd (@enable_bin_patch _ Concrete.trace_unicorn
                                Concrete.three_patches))
   \/ @enable_lib_patch _ Concrete.trace_unicorn Concrete.posix_little_host
        Concrete.three_patches
      = (Raise (UcError 7), snd (@enable_bin_patch _ Concrete.trace_unicorn
                                   Concrete.three_patches)))
  /\ patch_bin (snd (@enable_bin_patch _ Concrete.trace_unicorn
                       Concrete.three_patches))
     = patch_bin Concrete.three_patches.
Proof.
  assert (Hm : @enable_bin_patch _ Concrete.trace_unicorn Concrete.three_patches
               = (Raise (UcError 7),
                  snd (@enable_bin_patch _ Concrete.trace_unicorn
                         Concrete.three_patches))
               \/ @enable_lib_patch _ Concrete.trace_unicorn
                    Concrete.posix_little_host Concrete.three_patches
                  = (Raise (UcError 7),
                     snd (@enable_bin_patch _ Concrete.trace_unicorn
                            Concrete.three_patches))).
  { left. reflexivity. }
  split; [exact Hm|].
  exact (proj1 (@enable_patches_change_engine_only _ Concrete.trace_unicorn
                  Concrete.posix_little_host _ _ _ Hm)).
Defined.

Lemma enable_bin_patch_stops_at_failing_write_witness :
  patch_bin Concrete.three_patches
  = [(0x10, [Byte.x90])] ++ (0x20000, [Byte.xcc]) :: [(0x30, [Byte.x90])]
  /\ for_each [(0x10, [Byte.x90])] (@write_bin_patch _ Concrete.trace_unicorn)
       Concrete.three_patches
     = (Ok tt, snd (for_each [(0x10, [Byte.x90])]
                      (@write_bin_patch _ Concrete.trace_unicorn)
                      Concrete.three_patches))
  /\ Concrete.trace_mem_write
       (uc (snd (for_each [(0x10, [Byte.x90])]
                   (@write_bin_patch _ Concrete.trace_unicorn)
                   Concrete.three_patches)))
       (loadbase Concrete.three_patches + 0x20000) [Byte.xcc]
     = Raise (UcError 7)
  /\ Concrete.tu_writes
       (uc (snd (@enable_bin_patch _ Concrete.trace_unicorn Concrete.three_patches)))
     = [(0x10, [Byte.x90])].
Proof.
  assert (Hp : patch_bin Concrete.three_patches
               = [(0x10, [Byte.x90])] ++ (0x20000, [Byte.xcc]) :: [(0x30, [Byte.x90])])
    by reflexivity.
  assert (Hd : for_each [(0x10, [Byte.x90])] (@write_bin_patch _ Concrete.trace_unicorn)
                 Concrete.three_patches
               = (Ok tt, snd (for_each [(0x10, [Byte.x90])]
                                (@write_bin_patch _ Concrete.trace_unicorn)
                                Concrete.three_patches))) by reflexivity.
  assert (Hw : @uc_mem_write _ Concrete.trace_unicorn
                 (uc (snd (for_each [(0x10, [Byte.x90])]
                             (@write_bin_patch _ Concrete.trace_unicorn)
                             Concrete.three_patches)))
                 (loadbase Concrete.three_patches + 0x20000) [Byte.xcc]
               = Raise (UcError 7)) by reflexivity.
  split; [exact Hp|]. split; [exact Hd|]. split; [exact Hw|].
  rewrite (@enable_bin_patch_stops_at_failing_write _ Concrete.trace_unicorn
             _ _ _ _ _ _ _ Hp Hd Hw).
  reflexivity.
Defined.

Lemma lib_patch_lands_after_mapping_witness :
  patch_lib Concrete.pending_lib_patch = [] ++ [(0x10, [Byte.x90], "libc.so")]
  /\ labels_apart (map_info Concrete.pending_lib_patch) "r-x" "/lib/libc.so"
  /\ Forall (fun x => Concrete.posix_split_tail (ent_label x) <> "libc.so")
       (map_info Concrete.pending_lib_patch)
  /\ Concrete.posix_split_tail "/lib/libc.so" = "libc.so"
  /\ @enable_lib_patch _ Concrete.trace_unicorn Concrete.posix_little_host
       (snd (ql_insert_map_info 0x4000 0x5000 "r-x" "/lib/libc.so"
               Concrete.pending_lib_patch))
     = bind (for_each [] (@write_lib_patch _ Concrete.trace_unicorn
                            Concrete.posix_little_host))
            (fun _ => @mem_write _ Concrete.trace_unicorn (0x4000 + 0x10) [Byte.x90])
            (snd (ql_insert_map_info 0x4000 0x5000 "r-x" "/lib/libc.so"
                    Concrete.pending_lib_patch)).
Proof.
  assert (Hp : patch_lib Concrete.pending_lib_patch
               = [] ++ [(0x10, [Byte.x90], "libc.so")]) by reflexivity.
  assert (Hap : labels_apart (map_info Concrete.pending_lib_patch) "r-x" "/lib/libc.so").
  { intros l q Hl Hq. simpl in Hl, Hq.
    destruct Hl as [<- | []]; destruct Hq as [<- | []]; discriminate. }
  assert (Hold : Forall (fun x => Concrete.posix_split_tail (ent_label x) <> "libc.so")
                   (map_info Concrete.pending_lib_patch)) by constructor.
  assert (Hnew : Concrete.posix_split_tail "/lib/libc.so" = "libc.so") by reflexivity.
  split; [exact Hp|]. split; [exact Hap|]. split; [exact Hold|]. split; [exact Hnew|].
  exact (@lib_patch_lands_after_mapping _ Concrete.trace_unicorn
           Concrete.posix_little_host Concrete.pending_lib_patch [] 0x10 [Byte.x90]
           "libc.so" 0x4000 0x5000 "r-x" "/lib/libc.so" Hp Hap Hold Hnew).
Defined.

Lemma unpack_pack_round_trip_witness :
  (archbit (Concrete.with_arch 64 QL_ENDIAN_EB Concrete.fresh_ql) = 32
   \/ archbit (Concrete.with_arch 64 QL_ENDIAN_EB Concrete.fresh_ql) = 64)
  /\ 0 <= 0x0102030405060708
       < 2 ^ archbit (Concrete.with_arch 64 QL_ENDIAN_EB Concrete.fresh_ql)
  /\ exists bs,
       @pack _ Concrete.posix_little_host 0x0102030405060708
         (Concrete.with_arch 64 QL_ENDIAN_EB Concrete.fresh_ql)
       = (Ok bs, Concrete.with_arch 64 QL_ENDIAN_EB Concrete.fresh_ql)
       /\ Z.of_nat (List.length bs) * 8
          = archbit (Concrete.with_arch 64 QL_ENDIAN_EB Concrete.fresh_ql)
       /\ @unpack _ Concrete.posix_little_host bs
            (Concrete.with_arch 64 QL_ENDIAN_EB Concrete.fresh_ql)
          = (Ok 0x0102030405060708,
             Concrete.with_arch 64 QL_ENDIAN_EB Concrete.fresh_ql).
Proof.
  assert (Hbit : archbit (Concrete.with_arch 64 QL_ENDIAN_EB Concrete.fresh_ql) = 32
                 \/ archbit (Concrete.with_arch 64 QL_ENDIAN_EB Concrete.fresh_ql) = 64)
    by (right; reflexivity).
  assert (Hx : 0 <= 0x0102030405060708
               < 2 ^ archbit (Concrete.with_arch 64 QL_ENDIAN_EB Concrete.fresh_ql))
    by (simpl; lia).
  split; [exact Hbit|]. split; [exact Hx|].
  exact (@unpack_pack_round_trip _ Concrete.posix_little_host _ _ Hbit Hx).
Defined.

Lemma pack_unpack_round_trip_witness :
  (archbit (Concrete.with_arch 32 QL_ENDIAN_EB Concrete.fresh_ql) = 32
   \/ archbit (Concrete.with_arch 32 QL_ENDIAN_EB Concrete.fresh_ql) = 64)
  /\ Z.of_nat (List.length [Byte.xde; Byte.xad; Byte.xbe; Byte.xef]) * 8
     = archbit (Concrete.with_arch 32 QL_ENDIAN_EB Concrete.fresh_ql)
  /\ exists x,
       @unpack _ Concrete.posix_little_host [Byte.xde; Byte.xad; Byte.xbe; Byte.xef]
         (Concrete.with_arch 32 QL_ENDIAN_EB Concrete.fresh_ql)
       = (Ok x, Concrete.with_arch 32 QL_ENDIAN_EB Concrete.fresh_ql)
       /\ 0 <= x < 2 ^ archbit (Concrete.with_arch 32 QL_ENDIAN_EB Concrete.fresh_ql)
       /\ @pack _ Concrete.posix_little_host x
            (Concrete.with_arch 32 QL_ENDIAN_EB Concrete.fresh_ql)
          = (Ok [Byte.xde; Byte.xad; Byte.xbe; Byte.xef],
             Concrete.with_arch 32 QL_ENDIAN_EB Concrete.fresh_ql).
Proof.
  assert (Hbit : archbit (Concrete.with_arch 32 QL_ENDIAN_EB Concrete.fresh_ql) = 32
                 \/ archbit (Concrete.with_arch 32 QL_ENDIAN_EB Concrete.fresh_ql) = 64)
    by (left; reflexivity).
  assert (Hl : Z.of_nat (List.length [Byte.xde; Byte.xad; Byte.xbe; Byte.xef]) * 8
               = archbit (Concrete.with_arch 32 QL_ENDIAN_EB Concrete.fresh_ql))
    by reflexivity.
  split; [exact Hbit|]. split; [exact Hl|].
  exact (@pack_unpack_round_trip _ Concrete.posix_little_host _ _ Hbit Hl).
Defined.


Lemma unpacks_pack_signed_reading_witness :
  (archbit Concrete.fresh_ql = 32 \/ archbit Concrete.fresh_ql = 64)
  /\ 0 <= 0xffffffff < 2 ^ archbit Concrete.fresh_ql
  /\ exists bs,
       @pack _ Concrete.posix_little_host 0xffffffff Concrete.fresh_ql
       = (Ok bs, Concrete.fresh_ql)
       /\ @unpacks _ Concrete.posix_little_host bs Concrete.fresh_ql
          = (Ok (if 0xffffffff <? 2 ^ (archbit Concrete.fresh_ql - 1)
                 then 0xffffffff
                 else 0xffffffff - 2 ^ archbit Concrete.fresh_ql),
             Concrete.fresh_ql).
Proof.
  assert (Hbit : archbit Concrete.fresh_ql = 32 \/ archbit Concrete.fresh_ql = 64)
    by (left; reflexivity).
  assert (Hx : 0 <= 0xffffffff < 2 ^ archbit Concrete.fresh_ql) by (simpl; lia).
  split; [exact Hbit|]. split; [exact Hx|].
  exact (@unpacks_pack_signed_reading _ Concrete.posix_little_host _ _ Hbit Hx).
Defined.

Lemma pack32s_unpack32s_round_trip_witness :
  - 2 ^ 31 <= -2 < 2 ^ 31
  /\ exists bs,
       @pack32s _ Concrete.posix_little_host (-2) Concrete.fresh_ql
       = (Ok bs, Concrete.fresh_ql)
       /\ List.length bs = 4%nat
       /\ @unpack32s _ Concrete.posix_little_host bs Concrete.fresh_ql
          = (Ok (-2), Concrete.fresh_ql)
       /\ (archendian Concrete.fresh_ql = QL_ENDIAN_EL ->
           @unpack32s_ne _ Concrete.posix_little_host bs Concrete.fresh_ql
           = (Ok (-2), Concrete.fresh_ql)).
Proof.
  assert (Hx : - 2 ^ 31 <= -2 < 2 ^ 31) by lia.
  split; [exact Hx|].
  exact (proj1 (@pack32s_unpack32s_round_trip _ Concrete.posix_little_host
                  Concrete.fresh_ql (-2)) Hx).
Defined.

Lemma pack16_unpack16_round_trip_witness :
  0 <= 0xbeef < 65536
  /\ exists bs,
       @pack16 _ Concrete.posix_little_host 0xbeef Concrete.fresh_ql
       = (Ok bs, Concrete.fresh_ql)
       /\ List.length bs = 2%nat
       /\ @unpack16 _ Concrete.posix_little_host bs Concrete.fresh_ql
          = (Ok 0xbeef, Concrete.fresh_ql).
Proof.
  assert (Hx : 0 <= 0xbeef < 65536) by lia.
  split; [exact Hx|].
  exact (proj1 (@pack16_unpack16_round_trip _ Concrete.posix_little_host
                  Concrete.fresh_ql 0xbeef) Hx).
Defined.

(** ** The hook bridge: events of the wrong shape, [hook_insn], [stop] *)

Section HookFactsMore.

Context {U : Type} {engine : Unicorn U}.

(** Unfold a registration down to the inner callback of its wrapper. *)
Ltac open_hook :=
  cbn [register hook_code hook_intr hook_block hook_address hook_mem_unmapped
       hook_mem_read_invalid hook_mem_write_invalid hook_mem_fetch_invalid
       hook_mem_invalid hook_mem_read hook_mem_write hook_mem_fetch
       bridged fire hk_callback hk_user_data];
  unfold catch_KeyboardInterrupt, code_callback, intr_callback, mem_callback,
    address_callback, x86_syscall_callback.

(** X16: [stop] fails in one case only, a thread manager without current
    thread; it then raises AttributeError before anything is changed, the
    engine is not told to stop.  In every other case it returns and the
    engine is told to stop. *)
Theorem stop_fails_only_without_current_thread :
  forall (ev : thread_event) (ql : @Qiling U),
    (has_current_thread ql = false -> stop ev ql = (Raise AttributeError, ql))
    /\ (has_current_thread ql = true ->
        exists ql', stop ev ql = (Ok tt, ql')
                    /\ uc ql' = uc_emu_stop (uc ql)
                    /\ internal_exception ql' = internal_exception ql
                    /\ patch_bin ql' = patch_bin ql /\ patch_lib ql' = patch_lib ql
                    /\ map_info ql' = map_info ql).
Proof.
  intros ev ql. unfold has_current_thread, stop.
  destruct (thread_management ql) as [[[td|]]|]; split; intros Hc;
    try discriminate; try reflexivity;
    eexists; (split; [reflexivity|]); repeat split.
Qed.

(** X17: when the user callback of a bridged hook raises while the
    thread manager has no current thread, the exception is lost: the
    wrapper raises AttributeError to the engine, [internal_exception] does
    not receive the exception and the engine is not told to stop. *)
Theorem bridged_exception_lost_without_current_thread :
  forall (api : hook_api) (callback : pyfun) (user_data : pyval)
         (begin end_ : Z) (event : list pyval) (ql ql' : @Qiling U) (e : exn),
    List.length event = event_arity api ->
    callback (callback_args (forwarded api event) user_data) ql = (Raise e, ql') ->
    has_current_thread ql' = false ->
    fire (register api callback user_data begin end_) event ql
    = (Raise AttributeError, ql').
Proof.
  intros api callback user_data begin end_ event ql ql' e Hlen Hcb Hc.
  rewrite (fire_register _ _ _ _ _ _ _ Hlen), Hcb.
  now apply on_exception_without_current_thread.
Qed.

(** A bridged wrapper fired with another number of event fields than its
    hook has: the inner function is not entered, the call is a TypeError. *)
Lemma fire_register_wrong_arity (api : hook_api) (callback : pyfun)
    (user_data : pyval) (begin end_ : Z) (event : list pyval) (ql : @Qiling U) :
  List.length event <> event_arity api ->
  fire (register api callback user_data begin end_) event ql
  = on_exception TypeError ql.
Proof.
  intros Hlen.
  destruct api; cbn [event_arity] in Hlen;
    open_hook; unfold raise;
    repeat (destruct event as [|? event]; try reflexivity; try (now elim Hlen)).
Qed.


(** X19: no exception crosses the engine boundary from a bridged hook,
    whatever the event (of the right shape or not) and the outcome of the
    callback, as long as the emulator has a current thread (or no thread
    manager) before the call and after the call of the callback: the
    wrapper returns None. *)
Theorem bridged_hook_always_returns :
  forall (api : hook_api) (callback : pyfun) (user_data : pyval)
         (begin end_ : Z) (event : list pyval) (ql : @Qiling U),
    has_current_thread ql = true ->
    has_current_thread
      (snd (callback (callback_args (forwarded api event) user_data) ql)) = true ->
    exists ql', fire (register api callback user_data begin end_) event ql
                = (Ok VNone, ql').
Proof.
  intros api callback user_data begin end_ event ql Hc Hcb.
  destruct (Nat.eq_dec (List.length event) (event_arity api)) as [Hlen | Hlen].
  - rewrite (fire_register _ _ _ _ _ _ _ Hlen).
    destruct (callback (callback_args (forwarded api event) user_data) ql)
      as [[v|e] ql1]; cbn [snd] in Hcb.
    + now exists ql1.
    + destruct (on_exception_stops e ql1 Hcb) as (ql2 & H2 & _). now exists ql2.
  - rewrite (fire_register_wrong_arity _ _ _ _ _ _ _ Hlen).
    destruct (on_exception_stops TypeError ql Hc) as (ql2 & H2 & _). now exists ql2.
Qed.

(** X20: [hook_insn] for an instruction other than x86 SYSCALL does no
    bridging at all: the engine calls the user callback itself, with [uc]
    first and not the emulator, with [user_data] always as last argument
    (truthy or not), and whatever the callback returns or raises goes to
    the engine. *)
Theorem hook_insn_other_instruction_is_direct :
  forall (callback : pyfun) (arg1 : Z) (user_data : pyval) (begin end_ : Z)
         (event : list pyval) (ql : @Qiling U),
    arg1 <> UC_X86_INS_SYSCALL ->
    fire (hook_insn callback arg1 user_data begin end_) event ql
    = callback (VUc :: event ++ [user_data]) ql.
Proof.
  intros callback arg1 user_data begin end_ event ql Hne. unfold hook_insn.
  destruct (Z.eqb_spec arg1 UC_X86_INS_SYSCALL); [contradiction|]. reflexivity.
Qed.

(** X21: [hook_insn] for x86 SYSCALL follows the same rule for
    [user_data] as the other hooks: a falsy value fires like None, and the
    callback is called with the emulator alone. *)
Theorem hook_insn_syscall_falsy_user_data :
  forall (callback : pyfun) (user_data : pyval) (begin end_ : Z)
         (event : list pyval) (ql : @Qiling U),
    truthy user_data = false ->
    fire (hook_insn callback UC_X86_INS_SYSCALL user_data begin end_) event ql
    = fire (hook_insn callback UC_X86_INS_SYSCALL VNone begin end_) event ql
    /\ fire (hook_insn callback UC_X86_INS_SYSCALL user_data begin end_) [] ql
       = match callback [VQl] ql with
         | (Ok _, ql') => (Ok VNone, ql')
         | (Raise e, ql') => on_exception e ql'
         end.
Proof.
  intros callback user_data begin end_ event ql Hf. split.
  - unfold hook_insn. rewrite Z.eqb_refl. open_hook. now rewrite Hf.
  - rewrite fire_hook_insn_syscall. unfold callback_args. now rewrite Hf.
Qed.

End HookFactsMore.

(** ** [dprint] *)

Section LoggingFacts.

Context {U : Type}.

Variable py_str : pyval -> result string.
Variable logger_debug : log_call -> result unit.

(** The calls [dprint] makes when the gate lets an int [verbose] through. *)
Lemma dprint_past_gate (ql : @Qiling U) (level : Z) (args : list pyval)
    (kw : list (string * pyval)) (v : Z) :
  verbose ql = VInt v -> verbose_rejected ql = false ->
  dprint py_str logger_debug level args kw ql
  = if v >=? level then
      match output ql with
      | QL_OUT_DEBUG =>
          (logger_debug {| lc_args := args; lc_kw := kw |},
           [{| lc_args := args; lc_kw := kw |}])
      | QL_OUT_DUMP =>
          match args with
          | first :: _ =>
              match py_str first with
              | Ok msg =>
                  (logger_debug {| lc_args := [VStr msg]; lc_kw := kw |},
                   [{| lc_args := [VStr msg]; lc_kw := kw |}])
              | Raise e => (Raise e, [])
              end
          | [] => (Raise IndexError, [])
          end
      | _ => (Ok tt, [])
      end
    else (Ok tt, []).
Proof.
  intros Ev Hr. unfold dprint, dprint_check_verbose, check_verbose, raise, ret.
  rewrite Hr, Ev. reflexivity.
Qed.

Lemma dprint_at_gate (ql : @Qiling U) (level : Z) (args : list pyval)
    (kw : list (string * pyval)) :
  verbose_rejected ql = true ->
  exists msg,
    dprint py_str logger_debug level args kw ql = (Raise (QlErrorOutput msg), []).
Proof.
  intros Hr. unfold dprint, dprint_check_verbose, check_verbose, raise.
  rewrite Hr. cbn [fst]. eauto.
Qed.

(** In debug and dump mode the gate lets every int [verbose] through. *)
Lemma verbose_accepted_for_logging (ql : @Qiling U) (v : Z) :
  verbose ql = VInt v ->
  output ql = QL_OUT_DEBUG \/ output ql = QL_OUT_DUMP ->
  verbose_rejected ql = false.
Proof.
  intros Ev Ho. unfold verbose_rejected. rewrite Ev.
  destruct Ho as [-> | ->]; cbn [negb]; now rewrite !andb_false_r.
Qed.

(** X22: [dprint] calls the debug method of the logger exactly when
    [verbose] is an int not below [level] and either the output mode is
    debug, or it is dump and there is a first positional argument whose
    [str()] returns.  In debug mode the positional and keyword arguments
    are passed on as they are (none included); in dump mode only [str()]
    of the first argument is passed, with the keywords, and the further
    positional arguments are dropped.  The outcome of [dprint] is then
    the outcome of that call. *)
Theorem dprint_emits_iff :
  forall (ql : @Qiling U) (level : Z) (args : list pyval)
         (kw : list (string * pyval)) (c : log_call),
    (snd (dprint py_str logger_debug level args kw ql) = [c]
     <-> exists v,
           verbose ql = VInt v /\ level <= v
           /\ ((output ql = QL_OUT_DEBUG
                /\ c = {| lc_args := args; lc_kw := kw |})
               \/ (output ql = QL_OUT_DUMP
                   /\ exists first rest msg,
                        args = first :: rest /\ py_str first = Ok msg
                        /\ c = {| lc_args := [VStr msg]; lc_kw := kw |})))
    /\ (snd (dprint py_str logger_debug level args kw ql) = [c] ->
        fst (dprint py_str logger_debug level args kw ql) = logger_debug c).
Proof.
  intros ql level args kw c.
  assert (Hcases :
    snd (dprint py_str logger_debug level args kw ql) = [c] ->
    (exists v,
       verbose ql = VInt v /\ level <= v
       /\ ((output ql = QL_OUT_DEBUG
            /\ c = {| lc_args := args; lc_kw := kw |})
           \/ (output ql = QL_OUT_DUMP
               /\ exists first rest msg,
                    args = first :: rest /\ py_str first = Ok msg
                    /\ c = {| lc_args := [VStr msg]; lc_kw := kw |})))
    /\ fst (dprint py_str logger_debug level args kw ql) = logger_debug c).
  { destruct (verbose_rejected ql) eqn:Hr.
    - destruct (dprint_at_gate ql level args kw Hr) as [msg ->]. discriminate.
    - destruct (verbose ql) as [| | v | | | | | | | |] eqn:Ev;
        try (unfold verbose_rejected in Hr; rewrite Ev in Hr; discriminate).
      rewrite (dprint_past_gate ql level args kw v Ev Hr).
      destruct (Z.geb_spec v level); [|discriminate].
      destruct (output ql) eqn:Eo; try discriminate.
      + cbn [fst snd]. intros Hc. injection Hc as <-.
        split; [|reflexivity]. exists v. auto.
      + destruct args as [|first rest]; [discriminate|].
        destruct (py_str first) as [msg|e] eqn:Es; [|discriminate].
        cbn [fst snd]. intros Hc. injection Hc as <-.
        split; [|reflexivity]. exists v. split; [reflexivity|].
        split; [assumption|]. right. split; [reflexivity|].
        now exists first, rest, msg. }
  split; [split|].
  - intros Hc. now destruct (Hcases Hc).
  - intros (v & Ev & Hl & Hmode).
    assert (Hr : verbose_rejected ql = false).
    { apply (verbose_accepted_for_logging ql v Ev).
      destruct Hmode as [[Eo _] | [Eo _]]; auto. }
    rewrite (dprint_past_gate ql level args kw v Ev Hr).
    destruct (Z.geb_spec v level); [|lia].
    destruct Hmode as [[Eo ->] | (Eo & first & rest & msg & -> & Es & ->)];
      rewrite Eo, ?Es; reflexivity.
  - intros Hc. now destruct (Hcases Hc).
Qed.

(** X23: the failures of [dprint], and its silence.  A [verbose] that the
    gate rejects (not an int, or above 99 with an output mode other than
    debug and dump) raises QlErrorOutput whatever the level, before any
    call of the logger; in dump mode with [verbose >= level], no
    positional argument raises IndexError and an exception of [str()] is
    raised as it is, both without a call of the logger; with the output
    modes other than debug and dump an int [verbose] up to 99 logs
    nothing and raises nothing. *)
Theorem dprint_failures :
  forall (ql : @Qiling U) (level : Z) (args : list pyval)
         (kw : list (string * pyval)),
    (verbose_rejected ql = true ->
       exists msg,
         dprint py_str logger_debug level args kw ql
         = (Raise (QlErrorOutput msg), []))
    /\ (forall v, verbose ql = VInt v -> level <= v ->
          output ql = QL_OUT_DUMP ->
          dprint py_str logger_debug level [] kw ql = (Raise IndexError, [])
          /\ (forall first rest e,
                args = first :: rest -> py_str first = Raise e ->
                dprint py_str logger_debug level args kw ql = (Raise e, [])))
    /\ (forall v, verbose ql = VInt v -> v <= 99 ->
          output ql <> QL_OUT_DEBUG -> output ql <> QL_OUT_DUMP ->
          dprint py_str logger_debug level args kw ql = (Ok tt, [])).
Proof.
  intros ql level args kw. split; [|split].
  - apply dprint_at_gate.
  - intros v Ev Hl Eo.
    assert (Hr : verbose_rejected ql = false).
    { apply (verbose_accepted_for_logging ql v Ev). now right. }
    rewrite !(dprint_past_gate ql level _ kw v Ev Hr), Eo.
    destruct (Z.geb_spec v level); [|lia]. split; [reflexivity|].
    intros first rest e -> Es. now rewrite Es.
  - intros v Ev Hv Hd Hdump.
    assert (Hr : verbose_rejected ql = false).
    { unfold verbose_rejected. rewrite Ev, Z.gtb_ltb.
      destruct (Z.ltb_spec 99 v); [lia|]. reflexivity. }
    rewrite (dprint_past_gate ql level args kw v Ev Hr).
    destruct (v >=? level); destruct (output ql); try reflexivity; contradiction.
Qed.

End LoggingFacts.

(** ** Per-OS overrides *)

Section OverrideFacts.

Context {V : Type}.

Lemma dict_key_eqb_eq (a b : dict_key) : dict_key_eqb a b = true <-> a = b.
Proof.
  destruct a, b; simpl; try (split; discriminate).
  - rewrite Z.eqb_eq. split; congruence.
  - rewrite String.eqb_eq. split; congruence.
Qed.

Lemma dict_get_set_same (k : dict_key) (v : V) (d : list (dict_key * V)) :
  dict_get k (dict_set k v d) = Some v.
Proof.
  induction d as [|[k' v'] d IH]; simpl.
  - assert (E : dict_key_eqb k k = true) by now apply dict_key_eqb_eq.
    now rewrite E.
  - destruct (dict_key_eqb k' k) eqn:E; simpl; rewrite E; auto.
Qed.

Lemma dict_get_set_other (k k' : dict_key) (v : V) (d : list (dict_key * V)) :
  k' <> k -> dict_get k' (dict_set k v d) = dict_get k' d.
Proof.
  intros Hne. induction d as [|[k1 v1] d IH]; simpl.
  - destruct (dict_key_eqb k k') eqn:E; [|reflexivity].
    apply dict_key_eqb_eq in E. congruence.
  - destruct (dict_key_eqb k1 k) eqn:E; simpl.
    + apply dict_key_eqb_eq in E. subst k1.
      destruct (dict_key_eqb k k') eqn:E'; [|reflexivity].
      apply dict_key_eqb_eq in E'. congruence.
    + now rewrite IH.
Qed.

(** X24: [set_syscall] goes by the OS.  On Linux, macOS and FreeBSD the
    callback is found under its key in the posix syscall table, the other
    keys of that table and the whole API table stay; on Windows the same
    holds with the two tables exchanged (the call is a [set_api]). *)
Theorem set_syscall_routes_by_os :
  forall (ql : @os_overrides V) (key other : dict_key) (f : V) (os : ql_ostype),
    ostype ql = Some os -> other <> key ->
    (os <> QL_WINDOWS ->
       dict_get key (dict_posix_syscall (set_syscall key f ql)) = Some f
       /\ dict_get other (dict_posix_syscall (set_syscall key f ql))
          = dict_get other (dict_posix_syscall ql)
       /\ user_defined_api (set_syscall key f ql) = user_defined_api ql)
    /\ (os = QL_WINDOWS ->
        dict_get key (user_defined_api (set_syscall key f ql)) = Some f
        /\ dict_get other (user_defined_api (set_syscall key f ql))
           = dict_get other (user_defined_api ql)
        /\ dict_posix_syscall (set_syscall key f ql) = dict_posix_syscall ql
        /\ set_syscall key f ql = set_api key f ql).
Proof.
  intros ql key other f os Hos Hne. unfold set_syscall, set_api. rewrite Hos.
  split; intros Hw; destruct os; try contradiction; try discriminate;
    cbn [dict_posix_syscall user_defined_api];
    rewrite dict_get_set_same, dict_get_set_other by assumption; auto.
Qed.

(** X25: the overrides that are dropped without notice: [set_api] on any
    OS but Windows, and [set_syscall] and [set_api] while [ostype] is not
    set, leave both tables as they were. *)
Theorem overrides_ignored_silently :
  forall (ql : @os_overrides V) (key : dict_key) (f : V),
    (ostype ql <> Some QL_WINDOWS -> set_api key f ql = ql)
    /\ (ostype ql = None -> set_syscall key f ql = ql).
Proof.
  intros ql key f. unfold set_syscall, set_api. split.
  - intros Hw. destruct (ostype ql) as [[]|]; try reflexivity. now elim Hw.
  - intros ->. reflexivity.
Qed.

End OverrideFacts.

Lemma stop_fails_only_without_current_thread_witness :
  has_current_thread Concrete.no_current_thread_ql = false
  /\ @stop _ Concrete.trace_unicorn THREAD_EVENT_EXIT_GROUP_EVENT
       Concrete.no_current_thread_ql
     = (Raise AttributeError, Concrete.no_current_thread_ql).
Proof.
  assert (Hc : has_current_thread Concrete.no_current_thread_ql = false)
    by reflexivity.
  split; [exact Hc|].
  exact (proj1 (@stop_fails_only_without_current_thread _ Concrete.trace_unicorn
                  THREAD_EVENT_EXIT_GROUP_EVENT Concrete.no_current_thread_ql) Hc).
Defined.

Lemma bridged_exception_lost_without_current_thread_witness :
  List.length [VInt 0x80] = event_arity api_hook_intr
  /\ Concrete.interrupted (callback_args (forwarded api_hook_intr [VInt 0x80]) VNone)
       Concrete.no_current_thread_ql
     = (Raise KeyboardInterrupt, Concrete.no_current_thread_ql)
  /\ has_current_thread Concrete.no_current_thread_ql = false
  /\ fire (@register _ Concrete.trace_unicorn api_hook_intr Concrete.interrupted
             VNone 1 0) [VInt 0x80] Concrete.no_current_thread_ql
     = (Raise AttributeError, Concrete.no_current_thread_ql).
Proof.
  assert (Hlen : List.length [VInt 0x80] = event_arity api_hook_intr) by reflexivity.
  assert (Hcb : Concrete.interrupted
                  (callback_args (forwarded api_hook_intr [VInt 0x80]) VNone)
                  Concrete.no_current_thread_ql
                = (Raise KeyboardInterrupt, Concrete.no_current_thread_ql))
    by reflexivity.
  assert (Hc : has_current_thread Concrete.no_current_thread_ql = false)
    by reflexivity.
  split; [exact Hlen|]. split; [exact Hcb|]. split; [exact Hc|].
  exact (@bridged_exception_lost_without_current_thread _ Concrete.trace_unicorn
           api_hook_intr Concrete.interrupted VNone 1 0 [VInt 0x80]
           _ _ KeyboardInterrupt Hlen Hcb Hc).
Defined.


Lemma bridged_hook_always_returns_witness :
  has_current_thread Concrete.fresh_ql = true
  /\ has_current_thread
       (snd (Concrete.interrupted
               (callback_args (forwarded api_hook_mem_read
                                 [VInt 16; VInt 0x1000; VInt 4; VInt 0]) (VInt 7))
               Concrete.fresh_ql)) = true
  /\ exists ql',
       fire (@register _ Concrete.trace_unicorn api_hook_mem_read
               Concrete.interrupted (VInt 7) 1 0)
            [VInt 16; VInt 0x1000; VInt 4; VInt 0] Concrete.fresh_ql
       = (Ok VNone, ql').
Proof.
  assert (Hc : has_current_thread Concrete.fresh_ql = true) by reflexivity.
  assert (Hcb : has_current_thread
                  (snd (Concrete.interrupted
                          (callback_args (forwarded api_hook_mem_read
                             [VInt 16; VInt 0x1000; VInt 4; VInt 0]) (VInt 7))
                          Concrete.fresh_ql)) = true) by reflexivity.
  split; [exact Hc|]. split; [exact Hcb|].
  exact (@bridged_hook_always_returns _ Concrete.trace_unicorn api_hook_mem_read
           Concrete.interrupted (VInt 7) 1 0 [VInt 16; VInt 0x1000; VInt 4; VInt 0]
           Concrete.fresh_ql Hc Hcb).
Defined.

Lemma hook_insn_other_instruction_is_direct_witness :
  700 <> @UC_X86_INS_SYSCALL _ Concrete.trace_unicorn
  /\ fire (@hook_insn _ Concrete.trace_unicorn Concrete.three_params 700
             (VInt 0) 1 0) [VInt 1] Concrete.fresh_ql
     = Concrete.three_params (VUc :: [VInt 1] ++ [VInt 0]) Concrete.fresh_ql.
Proof.
  assert (Hne : 700 <> @UC_X86_INS_SYSCALL _ Concrete.trace_unicorn) by discriminate.
  split; [exact Hne|].
  exact (@hook_insn_other_instruction_is_direct _ Concrete.trace_unicorn
           Concrete.three_params 700 (VInt 0) 1 0 [VInt 1] Concrete.fresh_ql Hne).
Defined.

Lemma hook_insn_syscall_falsy_user_data_witness :
  truthy (VStr "") = false
  /\ fire (@hook_insn _ Concrete.trace_unicorn Concrete.interrupted
             (@UC_X86_INS_SYSCALL _ Concrete.trace_unicorn) (VStr "") 1 0)
          [] Concrete.fresh_ql
     = fire (@hook_insn _ Concrete.trace_unicorn Concrete.interrupted
               (@UC_X86_INS_SYSCALL _ Concrete.trace_unicorn) VNone 1 0)
            [] Concrete.fresh_ql.
Proof.
  assert (Hf : truthy (VStr "") = false) by reflexivity.
  split; [exact Hf|].
  exact (proj1 (@hook_insn_syscall_falsy_user_data _ Concrete.trace_unicorn
                  Concrete.interrupted (VStr "") 1 0 [] Concrete.fresh_ql Hf)).
Defined.

Lemma dprint_failures_witness :
  verbose_rejected (Concrete.with_verbose (VStr "1") QL_OUT_DEBUG Concrete.fresh_ql)
    = true
  /\ exists msg,
       dprint sample_str sample_debug 1 [VStr "x"] []
         (Concrete.with_verbose (VStr "1") QL_OUT_DEBUG Concrete.fresh_ql)
       = (Raise (QlErrorOutput msg), []).
Proof.
  assert (Hr : verbose_rejected
                 (Concrete.with_verbose (VStr "1") QL_OUT_DEBUG Concrete.fresh_ql)
               = true) by reflexivity.
  split; [exact Hr|].
  exact (proj1 (dprint_failures sample_str sample_debug
                  (Concrete.with_verbose (VStr "1") QL_OUT_DEBUG Concrete.fresh_ql)
                  1 [VStr "x"] []) Hr).
Defined.

(** [dprint] without positional argument but with the message as
    keyword: in debug mode the call reaches the logger and nothing is
    raised; in dump mode [args[0]] raises first. *)
Lemma dprint_message_as_keyword :
  dprint sample_str sample_debug 0 [] [("msg", VStr "x")]
    (Concrete.with_verbose (VInt 1) QL_OUT_DEBUG Concrete.fresh_ql)
  = (Ok tt, [{| lc_args := []; lc_kw := [("msg", VStr "x")] |}])
  /\ dprint sample_str sample_debug 0 [] [("msg", VStr "x")]
       (Concrete.with_verbose (VInt 1) QL_OUT_DUMP Concrete.fresh_ql)
     = (Raise IndexError, []).
Proof.
  split; reflexivity.
Qed.

Lemma set_syscall_routes_by_os_witness :
  ostype linux_overrides = Some QL_LINUX
  /\ KInt 1 <> KInt 60
  /\ QL_LINUX <> QL_WINDOWS
  /\ dict_get (KInt 60) (dict_posix_syscall (set_syscall (KInt 60) "my_exit"
                                               linux_overrides)) = Some "my_exit"
  /\ dict_get (KInt 1) (dict_posix_syscall (set_syscall (KInt 60) "my_exit"
                                              linux_overrides))
     = dict_get (KInt 1) (dict_posix_syscall linux_overrides)
  /\ user_defined_api (set_syscall (KInt 60) "my_exit" linux_overrides)
     = user_defined_api linux_overrides.
Proof.
  assert (Hos : ostype linux_overrides = Some QL_LINUX) by reflexivity.
  assert (Hne : KInt 1 <> KInt 60) by discriminate.
  assert (Hw : QL_LINUX <> QL_WINDOWS) by discriminate.
  split; [exact Hos|]. split; [exact Hne|]. split; [exact Hw|].
  exact (proj1 (set_syscall_routes_by_os linux_overrides (KInt 60) (KInt 1)
                  "my_exit" QL_LINUX Hos Hne) Hw).
Defined.

Lemma overrides_ignored_silently_witness :
  ostype linux_overrides <> Some QL_WINDOWS
  /\ set_api (KStr "ExitProcess") "my_exit" linux_overrides = linux_overrides.
Proof.
  assert (Hw : ostype linux_overrides <> Some QL_WINDOWS) by discriminate.
  split; [exact Hw|].
  exact (proj1 (overrides_ignored_silently linux_overrides (KStr "ExitProcess")
                  "my_exit") Hw).
Defined.

(** ** Memory map registry: the labels after a call *)

Lemma labelled_app a l (l1 l2 : list map_entry) :
  labelled a l (l1 ++ l2) <-> labelled a l l1 \/ labelled a l l2.
Proof. unfold labelled. apply Exists_app. Qed.

Lemma labelled_cons a l x (reg : list map_entry) :
  labelled a l (x :: reg)
  <-> (in_range a x /\ ent_label x = l) \/ labelled a l reg.
Proof. unfold labelled. apply Exists_cons. Qed.

Lemma labelled_nil a l : labelled a l [] <-> False.
Proof. unfold labelled. apply Exists_nil. Qed.

Lemma split_step_labelled mem_s mem_e mem_p mem_info flag x a l :
  labelled a l (fst (split_step mem_s mem_e mem_p mem_info flag x))
  <-> (in_range a x /\ ent_label x = l /\ ~ mem_s <= a < mem_e)
      \/ (flag = false
          /\ snd (split_step mem_s mem_e mem_p mem_info flag x) = true
          /\ mem_s <= a < mem_e /\ mem_info = l).
Proof.
  destruct x as [[[s e] p] info]. unfold split_step.
  assert (D : a < mem_s \/ mem_e <= a \/ mem_s <= a < mem_e) by lia.
  destruct (Z.leb_spec e mem_s).
  - cbn [fst snd]. rewrite labelled_cons, labelled_nil. unfold in_range. simpl.
    destruct flag; intuition (subst; try discriminate; try lia; try congruence; auto).
  - destruct (Z.geb_spec s mem_e).
    + cbn [fst snd]. destruct flag; cbn [app];
        rewrite ?labelled_cons, labelled_nil; unfold in_range; simpl;
        intuition (subst; try discriminate; try lia; try congruence; auto).
    + rewrite Z.gtb_ltb. cbn [fst snd].
      destruct (Z.ltb_spec s mem_s); destruct (Z.ltb_spec mem_e e);
        destruct flag; cbn [app];
        rewrite ?labelled_cons, labelled_nil; unfold in_range; simpl;
        intuition (subst; try discriminate; try lia; try congruence; auto).
Qed.

Lemma split_loop_labelled mem_s mem_e mem_p mem_info (reg : list map_entry) :
  forall flag a l,
    labelled a l (fst (split_loop mem_s mem_e mem_p mem_info flag reg))
    <-> (labelled a l reg /\ ~ mem_s <= a < mem_e)
        \/ (flag = false
            /\ snd (split_loop mem_s mem_e mem_p mem_info flag reg) = true
            /\ mem_s <= a < mem_e /\ mem_info = l).
Proof.
  induction reg as [|x rest IH]; intros flag a l.
  - cbn [split_loop fst snd]. rewrite labelled_nil.
    destruct flag; intuition discriminate.
  - cbn [split_loop].
    pose proof (split_step_labelled mem_s mem_e mem_p mem_info flag x a l) as Hs.
    assert (K1 : flag = true ->
                 snd (split_step mem_s mem_e mem_p mem_info flag x) = true).
    { intros ->. apply split_step_flag_kept. }
    destruct (split_step mem_s mem_e mem_p mem_info flag x) as [out f1].
    specialize (IH f1 a l).
    assert (K2 : f1 = true ->
                 snd (split_loop mem_s mem_e mem_p mem_info f1 rest) = true).
    { intros ->. apply split_loop_flag_kept. }
    destruct (split_loop mem_s mem_e mem_p mem_info f1 rest) as [outs f2].
    cbn [fst snd] in *. rewrite labelled_app, labelled_cons, Hs, IH.
    assert (D : mem_s <= a < mem_e \/ ~ mem_s <= a < mem_e) by lia.
    destruct flag, f1, f2;
      intuition (try discriminate; try congruence).
Qed.

Lemma build_tmp_labelled reg mem_s mem_e mem_p mem_info a l :
  labelled a l (build_tmp reg mem_s mem_e mem_p mem_info)
  <-> (labelled a l reg /\ ~ mem_s <= a < mem_e)
      \/ (mem_s <= a < mem_e /\ mem_info = l).
Proof.
  unfold build_tmp. destruct reg as [|x rest].
  - rewrite labelled_cons, !labelled_nil. unfold in_range. simpl. tauto.
  - pose proof (split_loop_labelled mem_s mem_e mem_p mem_info (x :: rest) false a l) as P.
    destruct (split_loop mem_s mem_e mem_p mem_info false (x :: rest)) as [tmp flag].
    cbn [fst snd] in P.
    assert (D : mem_s <= a < mem_e \/ ~ mem_s <= a < mem_e) by lia.
    destruct flag.
    + rewrite P. intuition.
    + rewrite labelled_app, P, !labelled_cons, labelled_nil. unfold in_range. simpl.
      intuition discriminate.
Qed.

(** X26: the labels after a call, with labels apart from permissions:
    an address inside [start, end) lies in an entry with the label of the
    call and in no entry with another label; an address outside lies in
    entries with exactly the labels it had before.  So the new range
    replaces what it overlaps and the rest of a split entry keeps its
    label. *)
Theorem insert_map_info_labels :
  forall (reg : list map_entry) (mem_s mem_e : Z) (mem_p mem_info : string)
         (a : Z) (l : string),
    labels_apart reg mem_p mem_info ->
    (labelled a l (insert_map_info reg mem_s mem_e mem_p mem_info)
     <-> (labelled a l reg /\ ~ mem_s <= a < mem_e)
         \/ (mem_s <= a < mem_e /\ mem_info = l)).
Proof.
  intros reg mem_s mem_e mem_p mem_info a l Hap.
  rewrite (insert_map_info_never_merges_real_labels _ _ _ _ _ Hap).
  apply build_tmp_labelled.
Qed.

Lemma insert_map_info_labels_witness :
  labels_apart [(0x1000, 0x5000, "r-x", "/bin/a")] "rw-" "[heap]"
  /\ (labelled 0x4fff "/bin/a"
        (insert_map_info [(0x1000, 0x5000, "r-x", "/bin/a")] 0x2000 0x3000
           "rw-" "[heap]")
      <-> (labelled 0x4fff "/bin/a" [(0x1000, 0x5000, "r-x", "/bin/a")]
           /\ ~ 0x2000 <= 0x4fff < 0x3000)
          \/ (0x2000 <= 0x4fff < 0x3000 /\ "[heap]" = "/bin/a")).
Proof.
  assert (Hap : labels_apart [(0x1000, 0x5000, "r-x", "/bin/a")] "rw-" "[heap]").
  { intros l q Hl Hq. simpl in Hl, Hq.
    destruct Hl as [<- | [<- | []]]; destruct Hq as [<- | [<- | []]]; discriminate. }
  split; [exact Hap|].
  exact (insert_map_info_labels [(0x1000, 0x5000, "r-x", "/bin/a")] 0x2000 0x3000
           "rw-" "[heap]" 0x4fff "/bin/a" Hap).
Defined.

(** ** The debugger spec of [run] *)

Lemma split_on_free (sep : ascii) (s : string) :
  contains_char sep s = false -> split_on sep s = [s].
Proof.
  induction s as [|c rest IH]; [reflexivity|]. cbn [contains_char split_on].
  intros Hc. apply orb_false_elim in Hc. destruct Hc as [Hc Hr].
  now rewrite Hc, (IH Hr).
Qed.

Lemma split_on_piece (sep : ascii) (a b : string) :
  contains_char sep a = false ->
  split_on sep (a ++ String sep b) = a :: split_on sep b.
Proof.
  induction a as [|c rest IH]; cbn [contains_char split_on String.append].
  - intros _. now rewrite Ascii.eqb_refl.
  - intros Hc. apply orb_false_elim in Hc. destruct Hc as [Hc Hr].
    now rewrite Hc, (IH Hr).
Qed.

(** X27: the debugger spec "kind:ip:port" is taken apart into its three
    fields, and "ip:port" into the two with "gdb" as kind, for fields
    without a colon. *)
Theorem run_debugger_spec_fields :
  forall (kind ip port : string),
    contains_char ":" kind = false -> contains_char ":" ip = false ->
    contains_char ":" port = false ->
    run_debugger_spec (DbgStr (kind ++ ":" ++ ip ++ ":" ++ port))
      = Ok (kind, ip, port)
    /\ run_debugger_spec (DbgStr (ip ++ ":" ++ port)) = Ok ("gdb", ip, port).
Proof.
  intros kind ip port Hk Hi Hp. unfold run_debugger_spec.
  change (kind ++ ":" ++ ip ++ ":" ++ port)%string
    with (kind ++ String ":" (ip ++ String ":" port))%string.
  change (ip ++ ":" ++ port)%string with (ip ++ String ":" port)%string.
  rewrite (split_on_piece _ _ _ Hk), !(split_on_piece _ _ _ Hi),
    (split_on_free _ _ Hp).
  split; reflexivity.
Qed.

Lemma run_debugger_spec_fields_witness :
  contains_char ":" "gdb" = false /\ contains_char ":" "127.0.0.1" = false
  /\ contains_char ":" "9999" = false
  /\ run_debugger_spec (DbgStr ("gdb" ++ ":" ++ "127.0.0.1" ++ ":" ++ "9999"))
     = Ok ("gdb", "127.0.0.1", "9999").
Proof.
  assert (Hk : contains_char ":" "gdb" = false) by reflexivity.
  assert (Hi : contains_char ":" "127.0.0.1" = false) by reflexivity.
  assert (Hp : contains_char ":" "9999" = false) by reflexivity.
  split; [exact Hk|]. split; [exact Hi|]. split; [exact Hp|].
  exact (proj1 (run_debugger_spec_fields "gdb" "127.0.0.1" "9999" Hk Hi Hp)).
Defined.

(** X28: the debugger specs [run] fails on before it reaches the
    debugger: a string without a colon and a string of four fields raise
    ValueError, and True raises AttributeError, so the call of the
    debugger that [run] keeps for [self.debugger is True] is never made. *)
Theorem run_debugger_spec_failures :
  forall (a b c d : string),
    contains_char ":" a = false -> contains_char ":" b = false ->
    contains_char ":" c = false -> contains_char ":" d = false ->
    run_debugger_spec (DbgStr a) = Raise ValueError
    /\ run_debugger_spec (DbgStr (a ++ ":" ++ b ++ ":" ++ c ++ ":" ++ d))
       = Raise ValueError
    /\ run_debugger_spec DbgTrue = Raise AttributeError.
Proof.
  intros a b c d Ha Hb Hc Hd. unfold run_debugger_spec.
  change (a ++ ":" ++ b ++ ":" ++ c ++ ":" ++ d)%string
    with (a ++ String ":" (b ++ String ":" (c ++ String ":" d)))%string.
  rewrite (split_on_piece _ _ _ Ha), (split_on_piece _ _ _ Hb),
    (split_on_piece _ _ _ Hc), (split_on_free _ _ Hd), (split_on_free _ _ Ha).
  repeat split.
Qed.

Lemma run_debugger_spec_failures_witness :
  contains_char ":" "gdb" = false /\ contains_char ":" "localhost" = false
  /\ contains_char ":" "9999" = false /\ contains_char ":" "x" = false
  /\ run_debugger_spec (DbgStr "gdb") = Raise ValueError.
Proof.
  assert (Ha : contains_char ":" "gdb" = false) by reflexivity.
  assert (Hb : contains_char ":" "localhost" = false) by reflexivity.
  assert (Hc : contains_char ":" "9999" = false) by reflexivity.
  assert (Hd : contains_char ":" "x" = false) by reflexivity.
  split; [exact Ha|]. split; [exact Hb|]. split; [exact Hc|]. split; [exact Hd|].
  exact (proj1 (run_debugger_spec_failures "gdb" "localhost" "9999" "x"
                  Ha Hb Hc Hd)).
Defined.
